(** * Arclead admin worker: a shallow embedding of [src/worker.js]

    The worker is a Cloudflare Workers script: a router over a table of
    regular-expression routes and a set of handlers doing whole-document
    read-modify-write against an R2 bucket.  The embedding follows the
    source function by function and keeps its names. *)

From Stdlib Require Import ZArith Ascii String List Bool Lia.
From Stdlib Require Import Decimal DecimalString DecimalFacts DecimalPos DecimalN.
From stdpp Require Import base option strings list gmap sorting.

Local Open Scope Z_scope.
Local Open Scope nat_scope.

(** ** JavaScript strings

    A JavaScript string is modelled as a Rocq [string]. *)

Module JsString.

(** [s.split(c)] for a separator [c] of one character: never empty. *)
Fixpoint split (sep : ascii) (s : string) : list string :=
  match s with
  | EmptyString => [EmptyString]
  | String c s' =>
      if Ascii.eqb c sep then EmptyString :: split sep s'
      else match split sep s' with
           | h :: t => String c h :: t
           | [] => [String c EmptyString]
           end
  end.

(** [s.startsWith(p)]. *)
Definition startsWith (s p : string) : bool := String.prefix p s.

(** [s.substr(n)]. *)
Fixpoint substr (n : nat) (s : string) : string :=
  match n, s with
  | 0, _ => s
  | S _, EmptyString => EmptyString
  | S k, String _ s' => substr k s'
  end.

(** [s.slice(0, n)]. *)
Fixpoint take (n : nat) (s : string) : string :=
  match n, s with
  | 0, _ => EmptyString
  | S _, EmptyString => EmptyString
  | S k, String c s' => String c (take k s')
  end.

(** A string is falsy exactly when it is empty. *)
Definition truthy (s : string) : bool :=
  match s with EmptyString => false | _ => true end.

End JsString.

(** ** The regular expressions of the router

    [handleApiRequest] builds, for every route, the expression
    [new RegExp(`^${routePath.replace(/\(.+\)/g, '([^/]+)')}$`)].  Two
    steps are modelled: the textual replacement, and the matching of the
    resulting expression, whose only non-literal construct is the
    capture group [([^/]+)]. *)

Module Regex.

(** [.] matches any character but a line terminator. *)
Definition line_terminator (c : ascii) : bool :=
  Ascii.eqb c "010" || Ascii.eqb c "013".

(** Offset, within the current line of [s], of the last [")"]: where
    the greedy [.+\)] ends once it has backtracked. *)
Fixpoint last_close (s : string) : option nat :=
  match s with
  | EmptyString => None
  | String c s' =>
      if line_terminator c then None
      else match last_close s' with
           | Some j => Some (S j)
           | None => if Ascii.eqb c ")" then Some 0 else None
           end
  end.

(** [s.replace(/\(.+\)/g, '([^/]+)')]: at the leftmost ["("] that some
    later [")"] of the line closes with at least one character in
    between, the match runs to the LAST such [")"] ([.+] is greedy);
    scanning resumes behind the match.  [skip] counts the characters
    of the current match still to be dropped. *)
Fixpoint replace_from (skip : nat) (s : string) : string :=
  match s with
  | EmptyString => EmptyString
  | String c s' =>
      match skip with
      | S k => replace_from k s'
      | 0 =>
          if Ascii.eqb c "(" then
            match last_close s' with
            | Some (S j) => "([^/]+)" +:+ replace_from (S (S j)) s'
            | _ => String c (replace_from 0 s')
            end
          else String c (replace_from 0 s')
      end
  end.

Definition replace_groups (s : string) : string := replace_from 0 s.

(** The compiled expression: literal characters and one-segment
    capture groups, implicitly anchored at both ends. *)
Inductive item : Type :=
| Lit (c : ascii)
| Segment.

Fixpoint compile_from (skip : nat) (src : string) : list item :=
  match src with
  | EmptyString => []
  | String c src' =>
      match skip with
      | S k => compile_from k src'
      | 0 =>
          if String.prefix "([^/]+)" src then Segment :: compile_from 6 src'
          else Lit c :: compile_from 0 src'
      end
  end.

Definition compile (src : string) : list item := compile_from 0 src.

(** Characters that stand for themselves in a JavaScript pattern.  A
    source whose literals are all plain is read by [compile] the way
    [new RegExp] reads it. *)
Definition plain (c : ascii) : bool :=
  negb (existsb (Ascii.eqb c)
          (list_ascii_of_string "\^$.|?*+()[]{}")).

Definition plain_item (i : item) : bool :=
  match i with Lit c => plain c | Segment => true end.

(** Length of the longest prefix without ["/"]. *)
Fixpoint segment_span (s : string) : nat :=
  match s with
  | EmptyString => 0
  | String c s' => if Ascii.eqb c "/" then 0 else S (segment_span s')
  end.

(** [[^/]+] is greedy: the longest candidate first, then shorter ones,
    down to one character. *)
Fixpoint try_lengths (k : string -> option (list string))
    (n : nat) (s : string) : option (list string) :=
  match n with
  | 0 => None
  | S m =>
      match k (JsString.substr n s) with
      | Some caps => Some (JsString.take n s :: caps)
      | None => try_lengths k m s
      end
  end.

(** [path.match(regex).slice(1)]: the captures of a match of the whole
    string, [None] when [match] returns [null]. *)
Fixpoint exec (r : list item) (s : string) : option (list string) :=
  match r with
  | [] => match s with EmptyString => Some [] | _ => None end
  | Lit c :: r' =>
      match s with
      | String c' s' => if Ascii.eqb c c' then exec r' s' else None
      | EmptyString => None
      end
  | Segment :: r' => try_lengths (exec r') (segment_span s) s
  end.

End Regex.

(** ** The route table *)

(** The function a table entry is bound to. *)
Inductive Handler : Type :=
| H_getArtists | H_createArtist | H_getArtist | H_updateArtist
| H_deleteArtist | H_getArtistPhotos | H_uploadPhoto | H_deletePhoto
| H_setMainPhoto | H_getFilmography | H_updateFilmography
| H_exportArtistsData | H_exportFilmographyData.

(** The keys of the [routes] object with the handler each one is bound
    to, in the order [Object.entries] enumerates them. *)
Definition routes : list (string * Handler) :=
  [ ("GET /api/artists", H_getArtists);
    ("POST /api/artists", H_createArtist);
    ("GET /api/artists/(.+)", H_getArtist);
    ("PUT /api/artists/(.+)", H_updateArtist);
    ("DELETE /api/artists/(.+)", H_deleteArtist);
    ("GET /api/artists/(.+)/photos", H_getArtistPhotos);
    ("POST /api/artists/(.+)/photos", H_uploadPhoto);
    ("DELETE /api/artists/(.+)/photos/(.+)", H_deletePhoto);
    ("PUT /api/artists/(.+)/main-photo", H_setMainPhoto);
    ("GET /api/artists/(.+)/filmography", H_getFilmography);
    ("PUT /api/artists/(.+)/filmography", H_updateFilmography);
    ("GET /api/export/artists", H_exportArtistsData);
    ("GET /api/export/filmography", H_exportFilmographyData) ].

(** The expression built for one route path. *)
Definition route_regex (routePath : string) : list Regex.item :=
  Regex.compile (Regex.replace_groups routePath).

(** The loop of [handleApiRequest]: the first entry whose method is the
    request's and whose expression matches the path, with the captures. *)
Fixpoint find_route (table : list (string * Handler))
    (method path : string) : option (Handler * list string) :=
  match table with
  | [] => None
  | (routePattern, handler) :: rest =>
      let parts := JsString.split " " routePattern in
      let routeMethod := nth 0 parts EmptyString in
      let routePath := nth 1 parts EmptyString in
      if String.eqb method routeMethod then
        match Regex.exec (route_regex routePath) path with
        | Some params => Some (handler, params)
        | None => find_route rest method path
        end
      else find_route rest method path
  end.

(** ** JSON values

    The values [JSON.parse] produces and [JSON.stringify] prints.
    Numbers are the integers (on which JavaScript's doubles agree up to
    2^53); a string is a sequence of code units below 256.  An object
    is the list of its properties in enumeration order, without
    repeated keys ([wf]). *)

Module JSON.

#[local] Unset Elimination Schemes.

Inductive value : Type :=
| Null
| Bool (b : bool)
| Num (n : Z)
| Str (s : string)
| Arr (l : list value)
| Obj (m : list (string * value)).

#[local] Set Elimination Schemes.

(** [o[k] = v]: an existing property keeps its place, a new one goes
    last. *)
Fixpoint set_prop (k : string) (v : value) (m : list (string * value))
    : list (string * value) :=
  match m with
  | [] => [(k, v)]
  | (k', v') :: m' =>
      if String.eqb k k' then (k, v) :: m' else (k', v') :: set_prop k v m'
  end.

Fixpoint lookup_prop (k : string) (m : list (string * value))
    : option value :=
  match m with
  | [] => None
  | (k', v) :: m' => if String.eqb k k' then Some v else lookup_prop k m'
  end.

Definition of_members (ps : list (string * value)) : list (string * value) :=
  fold_left (fun m p => set_prop (fst p) (snd p) m) ps [].

(** No key twice, at every level. *)
Fixpoint wf (v : value) : Prop :=
  match v with
  | Arr l => fold_right (fun x rest => wf x /\ rest) True l
  | Obj m =>
      NoDup (map fst m) /\
      fold_right (fun p rest => wf (snd p) /\ rest) True m
  | _ => True
  end.

(** Number of nodes; bounds the recursion of the parser. *)
Fixpoint size (v : value) : nat :=
  match v with
  | Arr l => S (fold_right (fun x rest => S (size x + rest)) 0 l)
  | Obj m => S (fold_right (fun p rest => S (size (snd p) + rest)) 0 m)
  | _ => 1
  end.

(** *** Printing *)

Definition dquote : ascii := "034"%char.

Definition hex_digit (n : N) : ascii :=
  ascii_of_N (if (n <? 10)%N then 48 + n else 87 + n)%N.

(** [QuoteJSONString], one code unit. *)
Definition escape (c : ascii) : string :=
  let n := N_of_ascii c in
  if (n =? 8)%N then "\b"
  else if (n =? 9)%N then "\t"
  else if (n =? 10)%N then "\n"
  else if (n =? 12)%N then "\f"
  else if (n =? 13)%N then "\r"
  else if (n =? 34)%N then String "\" (String c EmptyString)
  else if (n =? 92)%N then "\\"
  else if (n <? 32)%N then
    "\u00" +:+ String (hex_digit (n / 16)) (String (hex_digit (n mod 16)) EmptyString)
  else String c EmptyString.

Fixpoint emit_chars (s : string) (k : string) : string :=
  match s with
  | EmptyString => String dquote k
  | String c s' => escape c +:+ emit_chars s' k
  end.

Definition emit_string (s : string) (k : string) : string :=
  String dquote (emit_chars s k).

Definition emit_N (n : N) (k : string) : string :=
  NilZero.string_of_uint (N.to_uint n) +:+ k.

Definition emit_Z (n : Z) (k : string) : string :=
  match n with
  | Zneg p => String "-" (emit_N (Npos p) k)
  | _ => emit_N (Z.to_N n) k
  end.

(** [emit v k] is the text of [v] followed by [k]. *)
Fixpoint emit (v : value) (k : string) : string :=
  match v with
  | Null => "null" +:+ k
  | Bool true => "true" +:+ k
  | Bool false => "false" +:+ k
  | Num n => emit_Z n k
  | Str s => emit_string s k
  | Arr [] => "[]" +:+ k
  | Arr (x :: l) =>
      String "[" (emit x
        (fold_right (fun y rest => String "," (emit y rest)) (String "]" k) l))
  | Obj [] => "{}" +:+ k
  | Obj (p :: m) =>
      String "{" (emit_string (fst p) (String ":" (emit (snd p)
        (fold_right
           (fun q rest =>
              String "," (emit_string (fst q) (String ":" (emit (snd q) rest))))
           (String "}" k) m))))
  end.

(** [JSON.stringify(v)]. *)
Definition stringify (v : value) : string := emit v EmptyString.

(** *** Parsing *)

Definition is_ws (c : ascii) : bool :=
  Ascii.eqb c " " || Ascii.eqb c "009" || Ascii.eqb c "010" || Ascii.eqb c "013".

Fixpoint skip_ws (s : string) : string :=
  match s with
  | String c s' => if is_ws c then skip_ws s' else s
  | EmptyString => s
  end.

Definition is_digit (c : ascii) : bool :=
  let n := N_of_ascii c in (48 <=? n)%N && (n <=? 57)%N.

Definition hex_value (c : ascii) : option N :=
  let n := N_of_ascii c in
  if (48 <=? n)%N && (n <=? 57)%N then Some (n - 48)%N
  else if (97 <=? n)%N && (n <=? 102)%N then Some (n - 87)%N
  else if (65 <=? n)%N && (n <=? 70)%N then Some (n - 55)%N
  else None.

Definition unescape (e : ascii) : option ascii :=
  if Ascii.eqb e dquote then Some dquote
  else if Ascii.eqb e "\" then Some "\"%char
  else if Ascii.eqb e "/" then Some "/"%char
  else if Ascii.eqb e "b" then Some "008"%char
  else if Ascii.eqb e "f" then Some "012"%char
  else if Ascii.eqb e "n" then Some "010"%char
  else if Ascii.eqb e "r" then Some "013"%char
  else if Ascii.eqb e "t" then Some "009"%char
  else None.

(** The characters of a string literal behind its opening quote, and
    what follows the closing one. *)
Fixpoint parse_chars (s : string) : option (string * string) :=
  match s with
  | EmptyString => None
  | String c r =>
      if Ascii.eqb c dquote then Some (EmptyString, r)
      else if Ascii.eqb c "\" then
        match r with
        | EmptyString => None
        | String e r' =>
            if Ascii.eqb e "u" then
              match r' with
              | String h1 (String h2 (String h3 (String h4 r''))) =>
                  match hex_value h1, hex_value h2, hex_value h3, hex_value h4 with
                  | Some 0%N, Some 0%N, Some a, Some b =>
                      match parse_chars r'' with
                      | Some (t, rest) => Some (String (ascii_of_N (16 * a + b)) t, rest)
                      | None => None
                      end
                  | _, _, _, _ => None
                  end
              | _ => None
              end
            else
              match unescape e with
              | Some c' =>
                  match parse_chars r' with
                  | Some (t, rest) => Some (String c' t, rest)
                  | None => None
                  end
              | None => None
              end
        end
      else if (N_of_ascii c <? 32)%N then None
      else
        match parse_chars r with
        | Some (t, rest) => Some (String c t, rest)
        | None => None
        end
  end.

(** What follows [c] when [s] starts with it. *)
Definition peek (c : ascii) (s : string) : option string :=
  match s with
  | String c' r => if Ascii.eqb c' c then Some r else None
  | EmptyString => None
  end.

(** The digits [s] starts with, and the rest. *)
Fixpoint span_digits (s : string) : string * string :=
  match s with
  | String c s' =>
      if is_digit c then
        let (d, r) := span_digits s' in (String c d, r)
      else (EmptyString, s)
  | EmptyString => (EmptyString, EmptyString)
  end.

Definition leading_zero (d : string) : bool :=
  match d with
  | String c (String _ _) => Ascii.eqb c "0"
  | _ => false
  end.

(** A fraction or an exponent follows. *)
Definition fraction_follows (r : string) : bool :=
  match r with
  | String c _ => Ascii.eqb c "." || Ascii.eqb c "e" || Ascii.eqb c "E"
  | EmptyString => false
  end.

(** An integer literal without sign: no leading zero, no fraction and
    no exponent. *)
Definition parse_N (s : string) : option (N * string) :=
  let (d, r) := span_digits s in
  if leading_zero d || fraction_follows r then None
  else
    match NilZero.uint_of_string d with
    | Some u => Some (N.of_uint u, r)
    | None => None
    end.

Fixpoint parse_value (fuel : nat) (s : string) : option (value * string) :=
  match fuel with
  | 0 => None
  | S f =>
      match skip_ws s with
      | EmptyString => None
      | String c r =>
          if Ascii.eqb c "n" then
            if String.prefix "ull" r then Some (Null, JsString.substr 3 r) else None
          else if Ascii.eqb c "t" then
            if String.prefix "rue" r then Some (Bool true, JsString.substr 3 r) else None
          else if Ascii.eqb c "f" then
            if String.prefix "alse" r then Some (Bool false, JsString.substr 4 r) else None
          else if Ascii.eqb c dquote then
            match parse_chars r with
            | Some (t, rest) => Some (Str t, rest)
            | None => None
            end
          else if Ascii.eqb c "-" then
            match parse_N r with
            | Some (n, rest) => Some (Num (- Z.of_N n), rest)
            | None => None
            end
          else if is_digit c then
            match parse_N (String c r) with
            | Some (n, rest) => Some (Num (Z.of_N n), rest)
            | None => None
            end
          else if Ascii.eqb c "[" then
            match peek "]" (skip_ws r) with
            | Some rest => Some (Arr [], rest)
            | None =>
                match parse_value f r with
                | Some (x, r1) =>
                    match parse_elements f r1 with
                    | Some (l, rest) => Some (Arr (x :: l), rest)
                    | None => None
                    end
                | None => None
                end
            end
          else if Ascii.eqb c "{" then
            match peek "}" (skip_ws r) with
            | Some rest => Some (Obj [], rest)
            | None =>
                match parse_member f r with
                | Some (p, r1) =>
                    match parse_members f r1 with
                    | Some (m, rest) => Some (Obj (of_members (p :: m)), rest)
                    | None => None
                    end
                | None => None
                end
            end
          else None
      end
  end

with parse_elements (fuel : nat) (s : string) : option (list value * string) :=
  match fuel with
  | 0 => None
  | S f =>
      match skip_ws s with
      | String c r =>
          if Ascii.eqb c "]" then Some ([], r)
          else if Ascii.eqb c "," then
            match parse_value f r with
            | Some (x, r1) =>
                match parse_elements f r1 with
                | Some (l, rest) => Some (x :: l, rest)
                | None => None
                end
            | None => None
            end
          else None
      | EmptyString => None
      end
  end

with parse_member (fuel : nat) (s : string) : option ((string * value) * string) :=
  match fuel with
  | 0 => None
  | S f =>
      match skip_ws s with
      | String c r =>
          if Ascii.eqb c dquote then
            match parse_chars r with
            | Some (key, r1) =>
                match skip_ws r1 with
                | String c1 r2 =>
                    if Ascii.eqb c1 ":" then
                      match parse_value f r2 with
                      | Some (v, rest) => Some ((key, v), rest)
                      | None => None
                      end
                    else None
                | EmptyString => None
                end
            | None => None
            end
          else None
      | EmptyString => None
      end
  end

with parse_members (fuel : nat) (s : string)
    : option (list (string * value) * string) :=
  match fuel with
  | 0 => None
  | S f =>
      match skip_ws s with
      | String c r =>
          if Ascii.eqb c "}" then Some ([], r)
          else if Ascii.eqb c "," then
            match parse_member f r with
            | Some (p, r1) =>
                match parse_members f r1 with
                | Some (m, rest) => Some (p :: m, rest)
                | None => None
                end
            | None => None
            end
          else None
      | EmptyString => None
      end
  end.

(** [JSON.parse(text)]; [None] stands for the [SyntaxError] thrown. *)
Definition parse (text : string) : option value :=
  match parse_value (2 * S (String.length text)) text with
  | Some (v, rest) =>
      match skip_ws rest with
      | EmptyString => Some v
      | _ => None
      end
  | None => None
  end.

(** Induction over values, through the lists they nest. *)
Section Induction.
Variable P : value -> Prop.
Hypothesis HNull : P Null.
Hypothesis HBool : forall b, P (Bool b).
Hypothesis HNum : forall n, P (Num n).
Hypothesis HStr : forall s, P (Str s).
Hypothesis HArr : forall l, Forall P l -> P (Arr l).
Hypothesis HObj : forall m, Forall (fun p => P (snd p)) m -> P (Obj m).

Fixpoint value_ind (v : value) : P v :=
  match v with
  | Null => HNull
  | Bool b => HBool b
  | Num n => HNum n
  | Str s => HStr s
  | Arr l =>
      HArr l ((fix go l : Forall P l :=
                 match l with
                 | [] => @List.Forall_nil _ P
                 | x :: l' => @List.Forall_cons _ P x l' (value_ind x) (go l')
                 end) l)
  | Obj m =>
      HObj m ((fix go m : Forall (fun p => P (snd p)) m :=
                 match m with
                 | [] => @List.Forall_nil _ _
                 | p :: m' =>
                     @List.Forall_cons _ (fun p => P (snd p)) p m'
                       (value_ind (snd p)) (go m')
                 end) m)
  end.
End Induction.

(** What may follow a value in a text printed by [emit]. *)
Definition delim (k : string) : bool :=
  match k with
  | EmptyString => true
  | String c _ => Ascii.eqb c "," || Ascii.eqb c "]" || Ascii.eqb c "}"
  end.

(** The characters a printed value can start with. *)
Definition opens (c : ascii) : bool :=
  is_digit c || existsb (Ascii.eqb c) (list_ascii_of_string "ntf-[{")
  || Ascii.eqb c dquote.

(** The statement proved for every value, by induction. *)
Definition reads_back (v : value) : Prop :=
  wf v -> forall fuel k,
    size v <= fuel -> delim k = true ->
    parse_value fuel (emit v k) = Some (v, k).

End JSON.

(** ** JavaScript values in the handlers

    A handler works on parsed JSON; [undefined] is [None] of
    [option JSON.value]. *)

Module Js.
Import JSON.

(** What a [throw] carries, by kind. *)
Inductive Error : Type :=
| SyntaxError      (* JSON.parse, request.json() *)
| TypeError        (* property of null, call of a non-function, ... *)
| StorageError.    (* a failed call to the bucket *)

Inductive Outcome (A : Type) : Type :=
| Ok (a : A)
| Throw (e : Error).
Arguments Ok {A} a.
Arguments Throw {A} e.

(** [v.k] for a key that no prototype defines ([id], [name],
    [filmography], [photoId], [mainPhoto]). *)
Definition get_prop (v : value) (k : string) : Outcome (option value) :=
  match v with
  | Null => Throw TypeError
  | Obj m => Ok (lookup_prop k m)
  | _ => Ok None
  end.

(** [x === s] for a string [s]. *)
Definition strict_eq_string (x : option value) (s : string) : bool :=
  match x with
  | Some (Str t) => String.eqb t s
  | _ => false
  end.

(** [a.id === artistId]. *)
Definition id_is (artistId : string) (a : value) : Outcome bool :=
  match get_prop a "id" with
  | Ok x => Ok (strict_eq_string x artistId)
  | Throw e => Throw e
  end.

(** Truthiness ([if (x)], [x ? a : b], [!x]). *)
Definition truthy (x : option value) : bool :=
  match x with
  | None | Some Null | Some (Bool false) => false
  | Some (Num n) => negb (Z.eqb n 0)
  | Some (Str s) => JsString.truthy s
  | Some _ => true
  end.

(** [ToString], as applied by a template literal `${x}` and by a
    computed property key. *)
Fixpoint to_string (v : value) : string :=
  match v with
  | Null => "null"
  | Bool true => "true"
  | Bool false => "false"
  | Num n => emit_Z n EmptyString
  | Str s => s
  | Arr l =>
      (fix join l :=
         match l with
         | [] => EmptyString
         | x :: l' =>
             match x with Null => EmptyString | _ => to_string x end
             +:+ match l' with [] => EmptyString | _ => "," +:+ join l' end
         end) l
  | Obj _ => "[object Object]"
  end.

Definition template (x : option value) : string :=
  match x with
  | None => "undefined"
  | Some v => to_string v
  end.

(** The characters of a string, as [for ... of] and spread see them. *)
Fixpoint chars (s : string) : list value :=
  match s with
  | EmptyString => []
  | String c s' => Str (String c EmptyString) :: chars s'
  end.

Fixpoint indexed (i : N) (l : list value) : list (string * value) :=
  match l with
  | [] => []
  | x :: l' => (emit_N i EmptyString, x) :: indexed (N.succ i) l'
  end.

(** The own enumerable properties [{...v}] copies. *)
Definition spread (v : value) : list (string * value) :=
  match v with
  | Obj m => m
  | Arr l => indexed 0 l
  | Str s => indexed 0 (chars s)
  | _ => []
  end.

(** An object literal: properties in order, later ones overriding;
    a property whose value is [undefined] is dropped, as it is by
    [JSON.stringify], the only reader of the literals below. *)
Fixpoint object (ps : list (string * option value)) : list (string * value) :=
  match ps with
  | [] => []
  | (k, Some v) :: ps' => (k, v) :: object ps'
  | (_, None) :: ps' => object ps'
  end.

Definition literal (ps : list (string * option value)) : value :=
  Obj (of_members (object ps)).

End Js.

(** ** The world a request runs in *)

(** An object of the bucket: its bytes and its [httpMetadata]. *)
Record R2Object : Type := mkR2Object {
  body : string;
  contentType : option string
}.

Inductive BucketCall : Type :=
| CallGet (key : string)
| CallPut (key : string)
| CallDelete (key : string)
| CallList (prefix : string).

Inductive Level : Type := LogError | LogWarn.

(** A reading of the clock: [Date.now()] and [toISOString()] of it. *)
Record Instant : Type := mkInstant {
  epoch_ms : N;
  iso : string
}.

Record World : Type := mkWorld {
  bucket : gmap string R2Object;   (* env.R2_BUCKET *)
  faults : list bool;              (* whether the next calls to the bucket fail *)
  calls : list BucketCall;         (* the calls made so far, oldest first *)
  console : list (Level * string * Js.Error);
  clock : list Instant;            (* the coming readings of the clock *)
  random : list string             (* the coming Math.random().toString(36) *)
}.

(** ** Effects: state and exceptions *)

Definition M (A : Type) : Type := World -> Js.Outcome A * World.

Definition ret {A} (a : A) : M A := fun w => (Js.Ok a, w).

Definition throw {A} (e : Js.Error) : M A := fun w => (Js.Throw e, w).

Definition bind {A B} (m : M A) (k : A -> M B) : M B :=
  fun w =>
    match m w with
    | (Js.Ok a, w') => k a w'
    | (Js.Throw e, w') => (Js.Throw e, w')
    end.

(** [try { m } catch (error) { h error }]. *)
Definition try_catch {A} (m : M A) (h : Js.Error -> M A) : M A :=
  fun w =>
    match m w with
    | (Js.Ok a, w') => (Js.Ok a, w')
    | (Js.Throw e, w') => h e w'
    end.

Definition lift {A} (o : Js.Outcome A) : M A := fun w => (o, w).

Declare Scope js_scope.
Delimit Scope js_scope with js.
Notation "'let!' x ':=' m 'in' k" := (bind m (fun x => k))
  (at level 10, x name, m at level 100, k at level 200) : js_scope.
Notation "'do!' m 'in' k" := (bind m (fun _ => k))
  (at level 10, m at level 100, k at level 200) : js_scope.
Local Open Scope js_scope.

(** [for (const x of l) { f x }]. *)
Fixpoint for_each {A} (l : list A) (f : A -> M unit) : M unit :=
  match l with
  | [] => ret tt
  | x :: l' => do! f x in for_each l' f
  end.

(** A loop that rebuilds the elements it visits. *)
Fixpoint map_each {A B} (l : list A) (f : A -> M B) : M (list B) :=
  match l with
  | [] => ret []
  | x :: l' => let! y := f x in let! ys := map_each l' f in ret (y :: ys)
  end.

Definition console_error (label : string) (e : Js.Error) : M unit :=
  fun w => (Js.Ok tt,
            mkWorld (bucket w) (faults w) (calls w)
              (console w ++ [(LogError, label, e)]) (clock w) (random w)).

Definition console_warn (label : string) (e : Js.Error) : M unit :=
  fun w => (Js.Ok tt,
            mkWorld (bucket w) (faults w) (calls w)
              (console w ++ [(LogWarn, label, e)]) (clock w) (random w)).

(** ** The bucket

    Every call is recorded and consumes one entry of [faults]; a call
    whose entry is [true] throws and has no effect on the objects. *)

Definition call (c : BucketCall) : M unit :=
  fun w =>
    let w' := mkWorld (bucket w) (tail (faults w)) (calls w ++ [c])
                (console w) (clock w) (random w) in
    match faults w with
    | true :: _ => (Js.Throw Js.StorageError, w')
    | _ => (Js.Ok tt, w')
    end.

Definition update_bucket (f : gmap string R2Object -> gmap string R2Object) : M unit :=
  fun w => (Js.Ok tt,
            mkWorld (f (bucket w)) (faults w) (calls w) (console w) (clock w) (random w)).

(** [bucket.get(key)]: the object, or [null]. *)
Definition R2_get (key : string) : M (option R2Object) :=
  do! call (CallGet key) in fun w => (Js.Ok (bucket w !! key), w).

(** [bucket.put(key, data, { httpMetadata })]. *)
Definition R2_put (key : string) (data : string) (meta : option string) : M unit :=
  do! call (CallPut key) in update_bucket (insert key (mkR2Object data meta)).

(** [bucket.delete(key)]; deleting an absent key is not an error. *)
Definition R2_delete (key : string) : M unit :=
  do! call (CallDelete key) in update_bucket (delete key).

(** The keys [bucket.list({ prefix })] answers with: those that start
    with the prefix, in lexicographic order, one page of at most 1000. *)
Definition list_keys (prefix : string) (b : gmap string R2Object) : list string :=
  take 1000 (merge_sort String.le
               (filter (fun k => JsString.startsWith k prefix = true)
                       (map fst (map_to_list b)))).

Definition R2_list (prefix : string) : M (list string) :=
  do! call (CallList prefix) in fun w => (Js.Ok (list_keys prefix (bucket w)), w).

(** [new Date()] / [Date.now()]: the next reading of the clock. *)
Definition epoch : Instant := mkInstant 0 "1970-01-01T00:00:00.000Z".

Definition Date_new : M Instant :=
  fun w => (Js.Ok (hd epoch (clock w)),
            mkWorld (bucket w) (faults w) (calls w) (console w)
              (tail (clock w)) (random w)).

(** [Math.random().toString(36)]: a text such as [0.9x3k...]. *)
Definition Math_random_toString36 : M string :=
  fun w => (Js.Ok (hd "0" (random w)),
            mkWorld (bucket w) (faults w) (calls w) (console w)
              (clock w) (tail (random w))).

(** [n.toString(36)] for a natural number. *)
Definition digit36 (d : N) : ascii :=
  ascii_of_N (if (d <? 10)%N then 48 + d else 87 + d)%N.

Fixpoint toString36_from (fuel : nat) (n : N) (acc : string) : string :=
  match fuel with
  | 0 => acc
  | S f =>
      let acc' := String (digit36 (n mod 36)) acc in
      if (n / 36 =? 0)%N then acc' else toString36_from f (n / 36) acc'
  end.

Definition toString36 (n : N) : string :=
  toString36_from (S (N.to_nat (N.log2 n))) n EmptyString.

(** ** Requests and responses *)

Record File : Type := mkFile {
  name : string;       (* photo.name *)
  type : string;       (* photo.type *)
  stream : string      (* the bytes of photo.stream() *)
}.

Inductive FormValue : Type :=
| FieldString (s : string)
| FieldFile (f : File).

(** The body of a request: a text, or form data already split into
    its fields. *)
Inductive Body : Type :=
| TextBody (text : string)
| FormBody (fields : list (string * FormValue)).

Record Request : Type := mkRequest {
  method : string;
  pathname : string;      (* new URL(request.url).pathname *)
  payload : Body
}.

Record Response : Type := mkResponse {
  status : nat;
  headers : list (string * string);
  content : string
}.

(** [new Response(JSON.stringify(v), { status, headers: { 'Content-Type':
    'application/json' } })]. *)
Definition json_response (st : nat) (v : JSON.value) : Response :=
  mkResponse st [("Content-Type", "application/json")] (JSON.stringify v).

Definition error_response (st : nat) (msg : string) : Response :=
  json_response st (JSON.Obj [("error", JSON.Str msg)]).

Definition success : JSON.value := JSON.Obj [("success", JSON.Bool true)].

(** [JSON.parse] as a computation: a text outside the grammar throws. *)
Definition JSON_parse (text : string) : M JSON.value :=
  match JSON.parse text with
  | Some v => ret v
  | None => throw Js.SyntaxError
  end.

(** [await request.json()]. *)
Definition request_json (request : Request) : M JSON.value :=
  match payload request with
  | TextBody text => JSON_parse text
  | FormBody _ => throw Js.SyntaxError
  end.

(** [await request.formData()]. *)
Definition request_formData (request : Request)
    : M (list (string * FormValue)) :=
  match payload request with
  | FormBody fields => ret fields
  | TextBody _ => throw Js.TypeError
  end.

(** [formData.get(name)]: the first value of that name, or [null]. *)
Fixpoint formData_get (fields : list (string * FormValue)) (k : string)
    : option FormValue :=
  match fields with
  | [] => None
  | (k', v) :: rest => if String.eqb k k' then Some v else formData_get rest k
  end.

(** [await res.json()] on a response. *)
Definition response_json (res : Response) : M JSON.value :=
  JSON_parse (content res).

(** ** Utility functions of the worker *)

Definition getR2Object (key : string) : M (option string) :=
  try_catch
    (let! object := R2_get key in
     ret (match object with Some o => Some (body o) | None => None end))
    (fun error =>
       do! console_error ("getR2Object error for key " +:+ key +:+ ":") error in
       ret None).

Definition putR2Object (key data : string) : M unit :=
  R2_put key data (Some "application/json").

Definition deleteR2Object (key : string) : M unit :=
  R2_delete key.

Definition getR2ObjectUrl (key : string) : M string :=
  ret ("https://your-r2-domain.com/" +:+ key).

Definition getMainPhotoUrl (artistId : option JSON.value) : M (option string) :=
  try_catch
    (let mainPhotoKey := "artists/" +:+ Js.template artistId +:+ "/main.jpg" in
     let! mainPhoto := R2_get mainPhotoKey in
     match mainPhoto with
     | Some _ => let! url := getR2ObjectUrl mainPhotoKey in ret (Some url)
     | None => ret None
     end)
    (fun error =>
       do! console_error "getMainPhotoUrl error:" error in
       ret None).

Definition generateId : M string :=
  let! now := Date_new in
  let! r := Math_random_toString36 in
  ret (toString36 (epoch_ms now) +:+ JsString.substr 2 r).

Definition toISOString : M string :=
  let! d := Date_new in ret (iso d).

(** [artistsData ? JSON.parse(artistsData) : dflt]: [null] and the empty
    text are falsy. *)
Definition parse_or (data : option string) (dflt : JSON.value) : M JSON.value :=
  match data with
  | Some text => if JsString.truthy text then JSON_parse text else ret dflt
  | None => ret dflt
  end.

Definition filmography_key (artistId : string) : string :=
  "data/filmography/" +:+ artistId +:+ ".json".

Definition empty_filmography : JSON.value :=
  JSON.Obj [("dramas", JSON.Arr []); ("movies", JSON.Arr []);
            ("commercials", JSON.Arr [])].

(** The elements [for (const x of v)] visits: those of an array, the
    characters of a string; anything else is not iterable. *)
Definition iterate (v : JSON.value) : M (list JSON.value) :=
  match v with
  | JSON.Arr l => ret l
  | JSON.Str s => ret (Js.chars s)
  | _ => throw Js.TypeError
  end.

(** The receiver of an array method ([find], [findIndex], [filter],
    [push]): for any other value the method is not a function. *)
Definition as_array (v : JSON.value) : M (list JSON.value) :=
  match v with
  | JSON.Arr l => ret l
  | _ => throw Js.TypeError
  end.

(** [x.k = v] in strict mode (the worker is a module): a property of an
    object is set; one set on an array is not an index and is lost to
    [JSON.stringify]; a primitive refuses. *)
Definition assign (x : JSON.value) (k : string) (v : JSON.value) : M JSON.value :=
  match x with
  | JSON.Obj m => ret (JSON.Obj (JSON.set_prop k v m))
  | JSON.Arr l => ret (JSON.Arr l)
  | _ => throw Js.TypeError
  end.

(** ** Artist handlers *)

(** The body of the loop of [getArtists], giving the element back as
    the loop leaves it. *)
Definition attach_main_photo (artist : JSON.value) : M JSON.value :=
  let! id := lift (Js.get_prop artist "id") in
  let! mainPhotoUrl := getMainPhotoUrl id in
  match mainPhotoUrl with
  | Some url => assign artist "mainPhoto" (JSON.Str url)
  | None => ret artist
  end.

Definition getArtists : M Response :=
  try_catch
    (let! artistsData := getR2Object "data/artists.json" in
     let! artists := parse_or artistsData (JSON.Arr []) in
     let! elements := iterate artists in
     let! elements' := map_each elements attach_main_photo in
     let artists' :=
       match artists with JSON.Arr _ => JSON.Arr elements' | _ => artists end in
     ret (json_response 200 artists'))
    (fun error =>
       do! console_error "getArtists error:" error in
       ret (error_response 500 "Failed to get artists")).

Definition createArtist (request : Request) : M Response :=
  try_catch
    (let! artistData := request_json request in
     let! artistId := generateId in
     let! name := lift (Js.get_prop artistData "name") in
     let! createdAt := toISOString in
     let! updatedAt := toISOString in
     let newArtist :=
       Js.literal [("id", Some (JSON.Str artistId)); ("name", name);
                   ("createdAt", Some (JSON.Str createdAt));
                   ("updatedAt", Some (JSON.Str updatedAt))] in
     let! res := getArtists in
     let! existingArtists := response_json res in
     let! elements := as_array existingArtists in
     let existingArtists' := JSON.Arr (elements ++ [newArtist]) in
     do! putR2Object "data/artists.json" (JSON.stringify existingArtists') in
     let! filmography := lift (Js.get_prop artistData "filmography") in
     do! (match filmography with
          | Some f =>
              if Js.truthy filmography
              then putR2Object (filmography_key artistId) (JSON.stringify f)
              else ret tt
          | None => ret tt
          end) in
     ret (json_response 200
            (JSON.Obj [("success", JSON.Bool true);
                       ("artistId", JSON.Str artistId)])))
    (fun error =>
       do! console_error "createArtist error:" error in
       ret (error_response 500 "Failed to create artist")).

(** [artists.find(a => a.id === artistId)]. *)
Fixpoint find (artistId : string) (l : list JSON.value) : M (option JSON.value) :=
  match l with
  | [] => ret None
  | a :: l' =>
      let! hit := lift (Js.id_is artistId a) in
      if hit then ret (Some a) else find artistId l'
  end.

(** [artists.findIndex(a => a.id === artistId)]; [None] is [-1]. *)
Fixpoint findIndex (artistId : string) (l : list JSON.value) : M (option nat) :=
  match l with
  | [] => ret None
  | a :: l' =>
      let! hit := lift (Js.id_is artistId a) in
      if hit then ret (Some 0)
      else let! i := findIndex artistId l' in
           ret (match i with Some n => Some (S n) | None => None end)
  end.

(** [artists.filter(a => a.id !== artistId)]. *)
Fixpoint filter_out (artistId : string) (l : list JSON.value) : M (list JSON.value) :=
  match l with
  | [] => ret []
  | a :: l' =>
      let! hit := lift (Js.id_is artistId a) in
      let! rest := filter_out artistId l' in
      ret (if hit then rest else a :: rest)
  end.

Definition getArtist (artistId : string) : M Response :=
  try_catch
    (let! artistsData := getR2Object "data/artists.json" in
     let! artists := parse_or artistsData (JSON.Arr []) in
     let! elements := as_array artists in
     let! found := find artistId elements in
     match found with
     | None => ret (error_response 404 "Artist not found")
     | Some artist =>
         let! filmographyData := getR2Object (filmography_key artistId) in
         let! artist1 :=
           match filmographyData with
           | Some text =>
               if JsString.truthy text then
                 let! f := JSON_parse text in assign artist "filmography" f
               else ret artist
           | None => ret artist
           end in
         let! mainPhotoUrl := getMainPhotoUrl (Some (JSON.Str artistId)) in
         let! artist2 :=
           match mainPhotoUrl with
           | Some url => assign artist1 "mainPhoto" (JSON.Str url)
           | None => ret artist1
           end in
         ret (json_response 200 artist2)
     end)
    (fun error =>
       do! console_error "getArtist error:" error in
       ret (error_response 500 "Failed to get artist")).

Definition updateArtist (artistId : string) (request : Request) : M Response :=
  try_catch
    (let! updateData := request_json request in
     let! artistsData := getR2Object "data/artists.json" in
     let! artists := parse_or artistsData (JSON.Arr []) in
     let! elements := as_array artists in
     let! artistIndex := findIndex artistId elements in
     match artistIndex with
     | None => ret (error_response 404 "Artist not found")
     | Some i =>
         let! updatedAt := toISOString in
         let merged :=
           JSON.Obj (JSON.of_members
                       (Js.spread (nth i elements JSON.Null)
                        ++ Js.spread updateData
                        ++ [("updatedAt", JSON.Str updatedAt)])) in
         let artists' := JSON.Arr (<[i := merged]> elements) in
         do! putR2Object "data/artists.json" (JSON.stringify artists') in
         let! filmography := lift (Js.get_prop updateData "filmography") in
         do! (match filmography with
              | Some f =>
                  if Js.truthy filmography
                  then putR2Object (filmography_key artistId) (JSON.stringify f)
                  else ret tt
              | None => ret tt
              end) in
         ret (json_response 200 success)
     end)
    (fun error =>
       do! console_error "updateArtist error:" error in
       ret (error_response 500 "Failed to update artist")).

Definition deleteArtist (artistId : string) : M Response :=
  try_catch
    (let! artistsData := getR2Object "data/artists.json" in
     let! artists := parse_or artistsData (JSON.Arr []) in
     let! elements := as_array artists in
     let! filteredArtists := filter_out artistId elements in
     do! putR2Object "data/artists.json" (JSON.stringify (JSON.Arr filteredArtists)) in
     do! deleteR2Object (filmography_key artistId) in
     do! try_catch
           (let! photosList := R2_list ("artists/" +:+ artistId +:+ "/") in
            for_each photosList deleteR2Object)
           (fun deleteError => console_warn "Photo deletion error:" deleteError) in
     ret (json_response 200 success))
    (fun error =>
       do! console_error "deleteArtist error:" error in
       ret (error_response 500 "Failed to delete artist")).

(** ** Photo handlers *)

(** [key.split('/').pop().split('.')[0]]. *)
Definition photo_id_of_key (key : string) : string :=
  hd EmptyString
     (JsString.split "." (List.last (JsString.split "/" key) EmptyString)).

Definition getArtistPhotos (artistId : string) : M Response :=
  try_catch
    (let! photosList := R2_list ("artists/" +:+ artistId +:+ "/photos/") in
     let! photos :=
       map_each photosList (fun key =>
         let photoId := photo_id_of_key key in
         let! url := getR2ObjectUrl key in
         ret (JSON.Obj [("id", JSON.Str photoId); ("url", JSON.Str url);
                        ("isMain", JSON.Bool false)])) in
     ret (json_response 200 (JSON.Arr photos)))
    (fun error =>
       do! console_error "getArtistPhotos error:" error in
       ret (error_response 500 "Failed to get photos")).

(** [photo.name.split('.').pop() || 'jpg']. *)
Definition fileExtension (photo_name : string) : string :=
  let ext := List.last (JsString.split "." photo_name) EmptyString in
  if JsString.truthy ext then ext else "jpg".

Definition photo_key (artistId photoId ext : string) : string :=
  "artists/" +:+ artistId +:+ "/photos/" +:+ photoId +:+ "." +:+ ext.

Definition uploadPhoto (artistId : string) (request : Request) : M Response :=
  try_catch
    (let! formData := request_formData request in
     let photo := formData_get formData "photo" in
     match photo with
     | None | Some (FieldString EmptyString) =>
         ret (error_response 400 "No photo provided")
     | Some field =>
         let! photoId := generateId in
         match field with
         | FieldString _ => throw Js.TypeError     (* photo.name is undefined *)
         | FieldFile photo =>
             let key := photo_key artistId photoId (fileExtension (name photo)) in
             do! R2_put key (stream photo) (Some (type photo)) in
             let! url := getR2ObjectUrl key in
             ret (json_response 200
                    (JSON.Obj [("success", JSON.Bool true);
                               ("photoId", JSON.Str photoId);
                               ("url", JSON.Str url)]))
         end
     end)
    (fun error =>
       do! console_error "uploadPhoto error:" error in
       ret (error_response 500 "Failed to upload photo")).

Definition photo_prefix (artistId photoId : string) : string :=
  "artists/" +:+ artistId +:+ "/photos/" +:+ photoId.

Definition deletePhoto (artistId photoId : string) : M Response :=
  try_catch
    (let! photosList := R2_list (photo_prefix artistId photoId) in
     do! for_each photosList deleteR2Object in
     ret (json_response 200 success))
    (fun error =>
       do! console_error "deletePhoto error:" error in
       ret (error_response 500 "Failed to delete photo")).

Definition main_photo_key (artistId : string) : string :=
  "artists/" +:+ artistId +:+ "/main.jpg".

Definition setMainPhoto (artistId : string) (request : Request) : M Response :=
  try_catch
    (let! data := request_json request in
     let! photoId := lift (Js.get_prop data "photoId") in
     let! photosList := R2_list (photo_prefix artistId (Js.template photoId)) in
     match photosList with
     | [] => ret (error_response 404 "Photo not found")
     | sourceKey :: _ =>
         let! sourceObject := R2_get sourceKey in
         match sourceObject with
         | None => ret (error_response 404 "Photo not found")
         | Some source =>
             do! R2_put (main_photo_key artistId) (body source) (contentType source) in
             ret (json_response 200 success)
         end
     end)
    (fun error =>
       do! console_error "setMainPhoto error:" error in
       ret (error_response 500 "Failed to set main photo")).

(** ** Filmography handlers *)

Definition getFilmography (artistId : string) : M Response :=
  try_catch
    (let! filmographyData := getR2Object (filmography_key artistId) in
     let! filmography := parse_or filmographyData empty_filmography in
     ret (json_response 200 filmography))
    (fun error =>
       do! console_error "getFilmography error:" error in
       ret (error_response 500 "Failed to get filmography")).

Definition updateFilmography (artistId : string) (request : Request) : M Response :=
  try_catch
    (let! filmographyData := request_json request in
     do! putR2Object (filmography_key artistId) (JSON.stringify filmographyData) in
     ret (json_response 200 success))
    (fun error =>
       do! console_error "updateFilmography error:" error in
       ret (error_response 500 "Failed to update filmography")).

(** ** Export handlers *)

Definition json_of_option (x : option string) : JSON.value :=
  match x with Some s => JSON.Str s | None => JSON.Null end.

Fixpoint export_artists (artists : list JSON.value)
    (exportData : list (string * JSON.value)) : M (list (string * JSON.value)) :=
  match artists with
  | [] => ret exportData
  | artist :: rest =>
      let! id := lift (Js.get_prop artist "id") in
      let! filmographyData := getR2Object (filmography_key (Js.template id)) in
      let! filmography := parse_or filmographyData empty_filmography in
      let! mainPhotoUrl := getMainPhotoUrl id in
      let! artist_name := lift (Js.get_prop artist "name") in
      let entry :=
        JSON.Obj [("title", JSON.Str (Js.template artist_name +:+ " - 아크리드 아티스트"));
                  ("filmography", filmography);
                  ("mainPhoto", json_of_option mainPhotoUrl)] in
      export_artists rest (JSON.set_prop (Js.template artist_name) entry exportData)
  end.

Definition exportArtistsData : M Response :=
  try_catch
    (let! artistsData := getR2Object "data/artists.json" in
     let! artists := parse_or artistsData (JSON.Arr []) in
     let! elements := iterate artists in
     let! exportData := export_artists elements [] in
     ret (json_response 200 (JSON.Obj exportData)))
    (fun error =>
       do! console_error "exportArtistsData error:" error in
       ret (error_response 500 "Failed to export artists data")).

Fixpoint export_filmography (artists : list JSON.value)
    (filmographyData : list (string * JSON.value))
    : M (list (string * JSON.value)) :=
  match artists with
  | [] => ret filmographyData
  | artist :: rest =>
      let! id := lift (Js.get_prop artist "id") in
      let! data := getR2Object (filmography_key (Js.template id)) in
      match data with
      | Some text =>
          if JsString.truthy text then
            let! artist_name := lift (Js.get_prop artist "name") in
            let! parsed := JSON_parse text in
            export_filmography rest
              (JSON.set_prop (Js.template artist_name) parsed filmographyData)
          else export_filmography rest filmographyData
      | None => export_filmography rest filmographyData
      end
  end.

Definition exportFilmographyData : M Response :=
  try_catch
    (let! artistsData := getR2Object "data/artists.json" in
     let! artists := parse_or artistsData (JSON.Arr []) in
     let! elements := iterate artists in
     let! filmographyData := export_filmography elements [] in
     ret (json_response 200 (JSON.Obj filmographyData)))
    (fun error =>
       do! console_error "exportFilmographyData error:" error in
       ret (error_response 500 "Failed to export filmography data")).

(** ** The router *)

(** The i-th argument of [handler(...params)].  A missing argument is
    [undefined], which the template literals of the handlers print as
    the text below; no route of the table leaves [artistId] missing
    (see [route_arity]). *)
Definition arg (i : nat) (params : list string) : string :=
  nth i params "undefined".

(** The arrow function bound to a table entry, applied to the captures. *)
Definition invoke (handler : Handler) (params : list string)
    (request : Request) : M Response :=
  match handler with
  | H_getArtists => getArtists
  | H_createArtist => createArtist request
  | H_getArtist => getArtist (arg 0 params)
  | H_updateArtist => updateArtist (arg 0 params) request
  | H_deleteArtist => deleteArtist (arg 0 params)
  | H_getArtistPhotos => getArtistPhotos (arg 0 params)
  | H_uploadPhoto => uploadPhoto (arg 0 params) request
  | H_deletePhoto => deletePhoto (arg 0 params) (arg 1 params)
  | H_setMainPhoto => setMainPhoto (arg 0 params) request
  | H_getFilmography => getFilmography (arg 0 params)
  | H_updateFilmography => updateFilmography (arg 0 params) request
  | H_exportArtistsData => exportArtistsData
  | H_exportFilmographyData => exportFilmographyData
  end.

Definition not_found : Response := error_response 404 "Not Found".

Definition handleApiRequest (request : Request) : M Response :=
  match find_route routes (method request) (pathname request) with
  | Some (handler, params) => invoke handler params request
  | None => ret not_found
  end.

(** ** The entry point *)

(** Header names compare without regard to case. *)
Definition lower (c : ascii) : ascii :=
  let n := N_of_ascii c in
  if ((65 <=? n) && (n <=? 90))%N then ascii_of_N (n + 32) else c.

Fixpoint toLowerCase (s : string) : string :=
  match s with
  | EmptyString => EmptyString
  | String c s' => String (lower c) (toLowerCase s')
  end.

Definition same_name (a b : string) : bool :=
  String.eqb (toLowerCase a) (toLowerCase b).

(** [headers.get(name)], no name being repeated in the responses of
    the worker. *)
Fixpoint Headers_get (name : string) (hs : list (string * string))
    : option string :=
  match hs with
  | [] => None
  | (k, v) :: hs' => if same_name name k then Some v else Headers_get name hs'
  end.

(** [headers.set(name, value)]: the value takes the place of the
    header of that name, and is added last when there is none. *)
Fixpoint Headers_set (name value : string) (hs : list (string * string))
    : list (string * string) :=
  match hs with
  | [] => [(name, value)]
  | (k, v) :: hs' =>
      if same_name name k
      then (name, value) :: filter (fun p => negb (same_name name (fst p))) hs'
      else (k, v) :: Headers_set name value hs'
  end.

(** [new Response(body, { status, headers })] for a text or [null]
    body: a text body without content type is given [text/plain]. *)
Definition Response_new (body : option string) (st : nat)
    (hs : list (string * string)) : Response :=
  match body with
  | Some text =>
      mkResponse st
        (match Headers_get "content-type" hs with
         | Some _ => hs
         | None => hs ++ [("content-type", "text/plain;charset=UTF-8")]
         end)
        text
  | None => mkResponse st hs EmptyString
  end.

Definition corsHeaders : list (string * string) :=
  [("Access-Control-Allow-Origin", "*");
   ("Access-Control-Allow-Methods", "GET, POST, PUT, DELETE, OPTIONS");
   ("Access-Control-Allow-Headers", "Content-Type, Authorization");
   ("Access-Control-Max-Age", "86400")].

(** [Object.keys(corsHeaders).forEach(key => response.headers.set(key,
    corsHeaders[key]))]. *)
Definition add_cors (response : Response) : Response :=
  mkResponse (status response)
    (fold_left (fun hs kv => Headers_set (fst kv) (snd kv) hs) corsHeaders
       (headers response))
    (content response).

Section Entry.

(** [error.message], a text set by the runtime. *)
Variable message : Js.Error -> string.

Definition fetch (request : Request) : M Response :=
  let path := pathname request in
  if String.eqb (method request) "OPTIONS"
  then ret (Response_new None 200 corsHeaders)
  else
    try_catch
      (if JsString.startsWith path "/api/" then
         let! response := handleApiRequest request in
         ret (add_cors response)
       else ret (Response_new (Some "Arclead Entertainment API") 200 corsHeaders))
      (fun error =>
         do! console_error "Worker Error:" error in
         ret (Response_new
                (Some (JSON.stringify
                         (JSON.Obj [("error", JSON.Str "Internal Server Error");
                                    ("message", JSON.Str (message error))])))
                500
                (("Content-Type", "application/json") :: corsHeaders))).

End Entry.

(** ** Vocabulary of the statements *)

(** [artists] is the list the artist handlers read in [w]: that of the
    collection document, the empty list when the document is absent or
    empty. *)
Definition stored_artists (w : World) (artists : list JSON.value) : Prop :=
  match bucket w !! "data/artists.json" with
  | None => artists = []
  | Some o =>
      if JsString.truthy (body o)
      then JSON.parse (body o) = Some (JSON.Arr artists)
      else artists = []
  end.

(** No record of [artists] has the id [artistId] (and the test
    [a.id === artistId] throws on none). *)
Definition absent (artistId : string) (artists : list JSON.value) : Prop :=
  Forall (fun a => Js.id_is artistId a = Js.Ok false) artists.

(** The inner [try] of [deleteArtist]. *)
Definition photo_cleanup (artistId : string) : M unit :=
  try_catch
    (let! photosList := R2_list ("artists/" +:+ artistId +:+ "/") in
     for_each photosList deleteR2Object)
    (fun deleteError => console_warn "Photo deletion error:" deleteError).

(** [a.id === artistId], a test that throws counting as a miss. *)
Definition has_id (artistId : string) (a : JSON.value) : bool :=
  match Js.id_is artistId a with
  | Js.Ok hit => hit
  | Js.Throw _ => false
  end.

(** The collection without the records of [artistId]. *)
Definition without (artistId : string) (artists : list JSON.value)
    : list JSON.value :=
  List.filter (fun a => negb (has_id artistId a)) artists.

(** The collection document the handlers write for [artists]. *)
Definition collection_document (artists : list JSON.value) : R2Object :=
  mkR2Object (JSON.stringify (JSON.Arr artists)) (Some "application/json").

(** An artist record is an object. *)
Definition is_object (a : JSON.value) : bool :=
  match a with JSON.Obj _ => true | _ => false end.

(** The record [getArtists] hands on: [mainPhoto] is set when the bucket
    holds a main photo for the record's id. *)
Definition with_main_photo (b : gmap string R2Object) (artist : JSON.value)
    : JSON.value :=
  match artist with
  | JSON.Obj m =>
      let key := "artists/" +:+ Js.template (JSON.lookup_prop "id" m) +:+ "/main.jpg" in
      match b !! key with
      | Some _ =>
          JSON.Obj (JSON.set_prop "mainPhoto"
                      (JSON.Str ("https://your-r2-domain.com/" +:+ key)) m)
      | None => artist
      end
  | _ => artist
  end.

(** The id [generateId] returns in [w]. *)
Definition next_id (w : World) : string :=
  toString36 (epoch_ms (hd epoch (clock w)))
  +:+ JsString.substr 2 (hd "0" (random w)).

(** Only calls were added between [w] and [w']. *)
Definition reads_only (w w' : World) : Prop :=
  bucket w' = bucket w /\ faults w' = faults w /\ console w' = console w
  /\ clock w' = clock w /\ random w' = random w.

(** The record [createArtist] builds in [w] for a request naming [name]. *)
Definition new_record (w : World) (name : JSON.value) : JSON.value :=
  JSON.Obj [("id", JSON.Str (next_id w)); ("name", name);
            ("createdAt", JSON.Str (iso (nth 1 (clock w) epoch)));
            ("updatedAt", JSON.Str (iso (nth 2 (clock w) epoch)))].

(** A table entry after [split] and [new RegExp]. *)
Definition compile_entry (entry : string * Handler)
    : string * list Regex.item * Handler :=
  let parts := JsString.split " " (fst entry) in
  (nth 0 parts EmptyString, route_regex (nth 1 parts EmptyString), snd entry).

(** The table as the loop of [handleApiRequest] sees it. *)
Definition compiled_routes : list (string * list Regex.item * Handler) :=
  Eval vm_compute in map compile_entry routes.

(** [find_route] selects the entry of handler [h] with captures [ps]:
    that entry matches and no entry before it does. *)
Fixpoint selects (table : list (string * list Regex.item * Handler))
    (method path : string) (h : Handler) (ps : list string) : Prop :=
  match table with
  | [] => False
  | (m, r, h') :: rest =>
      (method = m /\ Regex.exec r path = Some ps /\ h = h')
      \/ (~ (method = m /\ Regex.exec r path <> None)
          /\ selects rest method path h ps)
  end.

(** The number of arguments a handler of the table reads. *)
Definition arity (h : Handler) : nat :=
  match h with
  | H_getArtists | H_createArtist | H_exportArtistsData
  | H_exportFilmographyData => 0
  | H_deletePhoto => 2
  | _ => 1
  end.

(** A path segment: not empty, without a slash. *)
Definition is_segment (s : string) : Prop :=
  s <> EmptyString /\ Regex.segment_span s = String.length s.

(** What follows a segment in a path: nothing, or a slash. *)
Definition at_boundary (rest : string) : Prop :=
  rest = EmptyString \/ exists t, rest = String "/" t.

(** What follows a group in the expressions of the table. *)
Definition after_segment (r : list Regex.item) : Prop :=
  r = [] \/ exists r', r = Regex.Lit "/" :: r'.

(** [find_route] on entries compiled beforehand. *)
Fixpoint find_compiled (table : list (string * list Regex.item * Handler))
    (method path : string) : option (Handler * list string) :=
  match table with
  | [] => None
  | (m, r, h) :: rest =>
      if String.eqb method m then
        match Regex.exec r path with
        | Some params => Some (h, params)
        | None => find_compiled rest method path
        end
      else find_compiled rest method path
  end.

(** A file name, or an extension, without a dot. *)
Definition no_dot (s : string) : Prop :=
  Forall (fun c => c <> "."%char) (list_ascii_of_string s).

(** ** Vocabulary of the further statements *)

(** What every response of a handler looks like. *)
Definition json_reply (res : Response) : Prop :=
  In (status res) [200; 400; 404; 500]
  /\ headers res = [("Content-Type", "application/json")].

(** Whatever [m] returns satisfies [P]. *)
Definition yields {A} (P : A -> Prop) (m : M A) : Prop :=
  forall w a w', m w = (Js.Ok a, w') -> P a.

(** [m] never throws, and what it returns satisfies [P]. *)
Definition answers {A} (P : A -> Prop) (m : M A) : Prop :=
  forall w, exists a w', m w = (Js.Ok a, w') /\ P a.

Definition is_read (c : BucketCall) : bool :=
  match c with
  | CallGet _ | CallList _ => true
  | CallPut _ | CallDelete _ => false
  end.

(** From [w] to [w'] the objects are the same and only [get] and
    [list] calls were made. *)
Definition only_read (w w' : World) : Prop :=
  bucket w' = bucket w
  /\ exists l, calls w' = calls w ++ l /\ forallb is_read l = true.

Definition writes_nothing {A} (m : M A) : Prop :=
  forall w, only_read w (snd (m w)).

(** The JSON document the handlers read under [key]: none when the
    object is absent or empty; reading a text outside the grammar
    throws. *)
Definition document (b : gmap string R2Object) (key : string)
    : Js.Outcome (option JSON.value) :=
  match b !! key with
  | Some o =>
      if JsString.truthy (body o) then
        match JSON.parse (body o) with
        | Some v => Js.Ok (Some v)
        | None => Js.Throw Js.SyntaxError
        end
      else Js.Ok None
  | None => Js.Ok None
  end.

(** The record [getArtist] answers with: the stored record, its
    filmography document when there is one, the URL of its main photo
    when there is one. *)
Definition artist_view (b : gmap string R2Object)
    (m : list (string * JSON.value)) (film : option JSON.value) : JSON.value :=
  with_main_photo b
    (JSON.Obj (match film with
               | Some f => JSON.set_prop "filmography" f m
               | None => m
               end)).

(** The record [updateArtist] puts in place of a record with the
    properties [m]: [{ ...existing, ...updateData, updatedAt }]. *)
Definition updated_record (m : list (string * JSON.value))
    (updateData : JSON.value) (stamp : string) : JSON.value :=
  JSON.Obj (JSON.of_members
              (m ++ Js.spread updateData ++ [("updatedAt", JSON.Str stamp)])).

(** The document [putR2Object] stores for the value [v]. *)
Definition json_document (v : JSON.value) : R2Object :=
  mkR2Object (JSON.stringify v) (Some "application/json").

(** The write [if (data.filmography) putR2Object(...)] makes to the
    bucket, [filmography] being the value of that property. *)
Definition store_filmography (artistId : string) (filmography : option JSON.value)
    (b : gmap string R2Object) : gmap string R2Object :=
  match filmography with
  | Some f =>
      if Js.truthy filmography
      then <[filmography_key artistId := json_document f]> b
      else b
  | None => b
  end.


(** The [id] a record is looked up by: [artist.id]. *)
Definition record_id (artist : JSON.value) : option JSON.value :=
  match artist with
  | JSON.Obj m => JSON.lookup_prop "id" m
  | _ => None
  end.

(** What [createArtist] leaves in the bucket. *)
Definition created (w : World) (name : JSON.value)
    (artists : list JSON.value) (filmography : option JSON.value)
    : gmap string R2Object :=
  store_filmography (next_id w) filmography
    (<["data/artists.json" :=
         collection_document
           (map (with_main_photo (bucket w)) artists ++ [new_record w name])]>
       (bucket w)).

(** A text without a slash. *)
Definition no_slash (s : string) : Prop :=
  Forall (fun c => c <> "/"%char) (list_ascii_of_string s).

(** The entry [getArtistPhotos] lists for a stored key. *)
Definition photo_entry (key : string) : JSON.value :=
  JSON.Obj [("id", JSON.Str (photo_id_of_key key));
            ("url", JSON.Str ("https://your-r2-domain.com/" +:+ key));
            ("isMain", JSON.Bool false)].

(** The URL [getMainPhotoUrl] answers with for [artistId] over the
    objects [b]. *)
Definition main_photo_url (b : gmap string R2Object) (artistId : option JSON.value)
    : option string :=
  match b !! main_photo_key (Js.template artistId) with
  | Some _ =>
      Some ("https://your-r2-domain.com/" +:+ main_photo_key (Js.template artistId))
  | None => None
  end.

(** [m] leaves the object under [k] as it is, whether it returns or
    throws. *)
Definition keeps {A} (k : string) (m : M A) : Prop :=
  forall w, bucket (snd (m w)) !! k = bucket w !! k.

(** The keys a request about the artist [artistId] may write: the
    collection, the filmography document of the artist, and the keys
    under [artists/{artistId}/]. *)
Definition own (artistId k : string) : bool :=
  String.eqb k "data/artists.json"
  || String.eqb k (filmography_key artistId)
  || JsString.startsWith k ("artists/" +:+ artistId +:+ "/").






(** The answers [fetch] gives without looking at the bucket. *)
Definition preflight : Response := mkResponse 200 corsHeaders EmptyString.

Definition banner : Response :=
  mkResponse 200
    (corsHeaders ++ [("content-type", "text/plain;charset=UTF-8")])
    "Arclead Entertainment API".

(** A response carries the four headers that open the API to every
    origin. *)
Definition carries_cors (res : Response) : Prop :=
  forall k v, In (k, v) corsHeaders -> Headers_get k (headers res) = Some v.

(** ** Sample worlds and requests *)

(** A world with the objects [b] and the faults [fs], nothing called or
    logged yet. *)
Definition quiet (b : gmap string R2Object) (fs : list bool) : World :=
  mkWorld b fs [] [] [mkInstant 1730000000000 "2024-10-27T03:33:20.000Z"]
    ["0.4fzyo82mvyr"].

Definition artist_A : JSON.value :=
  JSON.Obj [("id", JSON.Str "a"); ("name", JSON.Str "A")].

(** A bucket holding a collection of one artist. *)
Definition one_artist : gmap string R2Object :=
  {[ "data/artists.json" := collection_document [artist_A] ]}.

(** The same with a main photo for that artist. *)
Definition with_photo : gmap string R2Object :=
  <[ "artists/a/main.jpg" := mkR2Object "JPEG" (Some "image/jpeg") ]> one_artist.

(** A request to create the artist named [n]. *)
Definition named (n : string) : Request :=
  mkRequest "POST" "/api/artists"
    (TextBody (JSON.stringify (JSON.Obj [("name", JSON.Str n)]))).


(** A bucket with one uploaded photo of artist [a]. *)
Definition photos_of_a : gmap string R2Object :=
  <[ "artists/a/photos/p1.png" := mkR2Object "PNG" (Some "image/png") ]> one_artist.

(** A request to make [photoId] the main photo of artist [a]. *)
Definition choose (photoId : string) : Request :=
  mkRequest "PUT" "/api/artists/a/main-photo"
    (TextBody (JSON.stringify (JSON.Obj [("photoId", JSON.Str photoId)]))).

Arguments JSON.parse : simpl never.
Arguments JSON.stringify : simpl never.

(** * Facts about JSON texts *)

Module JSONFacts.
Import JSON.

Lemma wf_Arr l : wf (Arr l) <-> Forall wf l.
Proof.
  simpl. induction l as [|x l IH]; [by split; [constructor|] |].
  rewrite Forall_cons, <- IH. reflexivity.
Qed.

Lemma wf_Obj m :
  wf (Obj m) <-> NoDup (map fst m) /\ Forall (fun p => wf (snd p)) m.
Proof.
  simpl. apply and_iff_compat_l.
  induction m as [|p m IH]; [by split; [constructor|] |].
  rewrite Forall_cons, <- IH. reflexivity.
Qed.

(** *** String literals *)

Lemma append_cons c a b : String c a +:+ b = String c (a +:+ b).
Proof. reflexivity. Qed.

Lemma append_nil b : EmptyString +:+ b = b.
Proof. reflexivity. Qed.

Lemma parse_chars_emit s k : parse_chars (emit_chars s k) = Some (s, k).
Proof.
  induction s as [|c s IH]; [reflexivity|].
  destruct c as [[] [] [] [] [] [] [] []];
    cbn [emit_chars];
    match goal with
    | |- context [escape ?c] =>
        let e := eval vm_compute in (escape c) in change (escape c) with e
    end;
    rewrite ?append_cons, ?append_nil; cbn; rewrite IH; reflexivity.
Qed.

(** *** Numbers *)

Lemma delim_cases k :
  delim k = true ->
  k = EmptyString \/ exists r, k = String "," r \/ k = String "]" r \/ k = String "}" r.
Proof.
  destruct k as [|c r]; [by left|]. simpl. intros H. right. exists r.
  apply orb_true_iff in H as [H|H]; [apply orb_true_iff in H as [H|H]|];
    apply Ascii.eqb_eq in H; subst; auto.
Qed.

Lemma span_digits_uint d k :
  match k with String c _ => is_digit c = false | EmptyString => True end ->
  span_digits (NilEmpty.string_of_uint d +:+ k) = (NilEmpty.string_of_uint d, k).
Proof.
  intros Hk. induction d; cbn [NilEmpty.string_of_uint];
    rewrite ?append_cons, ?append_nil;
    try (cbn [span_digits]; change (is_digit _) with true; cbv iota;
         rewrite IHd; reflexivity).
  destruct k as [|c r]; [reflexivity|]. cbn [span_digits]. by rewrite Hk.
Qed.

Lemma to_uint_normal n : unorm (N.to_uint n) = N.to_uint n.
Proof.
  rewrite <- (DecimalN.Unsigned.to_of (N.to_uint n)).
  by rewrite DecimalN.Unsigned.of_to.
Qed.

Lemma to_uint_nonnil n : N.to_uint n <> Nil.
Proof. rewrite <- to_uint_normal. apply unorm_nonnil. Qed.

Lemma leading_zero_uint n :
  leading_zero (NilEmpty.string_of_uint (N.to_uint n)) = false.
Proof.
  rewrite <- to_uint_normal. unfold unorm.
  destruct (nzhead (N.to_uint n)) eqn:E; try reflexivity;
    try (cbn; by destruct (NilEmpty.string_of_uint _)).
  by apply nzhead_nonzero in E.
Qed.

Lemma parse_N_emit n k :
  delim k = true -> parse_N (emit_N n k) = Some (n, k).
Proof.
  intros Hk. unfold parse_N, emit_N.
  assert (Hs : NilZero.string_of_uint (N.to_uint n)
               = NilEmpty.string_of_uint (N.to_uint n)).
  { pose proof (to_uint_nonnil n). by destruct (N.to_uint n). }
  rewrite Hs, span_digits_uint.
  - rewrite leading_zero_uint.
    assert (fraction_follows k = false) as ->.
    { destruct (delim_cases k Hk) as [->|[r [->|[->| ->]]]]; reflexivity. }
    cbn [orb]. rewrite <- Hs, NilZero.usu by apply to_uint_nonnil.
    by rewrite DecimalN.Unsigned.of_to.
  - destruct (delim_cases k Hk) as [->|[r [->|[->| ->]]]]; done.
Qed.

(** *** Values *)

Lemma opens_facts c :
  opens c = true ->
  is_ws c = false /\ Ascii.eqb c "]" = false /\ Ascii.eqb c "}" = false.
Proof. destruct c as [[] [] [] [] [] [] [] []]; cbn; try discriminate; auto. Qed.

Lemma emit_N_head n k :
  exists c r, emit_N n k = String c r /\ is_digit c = true.
Proof.
  unfold emit_N. pose proof (to_uint_nonnil n) as H.
  destruct (N.to_uint n); [done| ..];
    cbn [NilZero.string_of_uint NilEmpty.string_of_uint];
    rewrite append_cons; eauto.
Qed.

Lemma emit_head v k : exists c r, emit v k = String c r /\ opens c = true.
Proof.
  destruct v as [|[]|n|s|[|x l]|[|p m]];
    try (eexists _, _; split; [reflexivity|reflexivity]).
  destruct n as [|p|p]; cbn [emit emit_Z].
  - destruct (emit_N_head (Z.to_N 0) k) as (c & r & -> & Hc).
    exists c, r. split; [done|]. unfold opens. by rewrite Hc.
  - destruct (emit_N_head (Z.to_N (Z.pos p)) k) as (c & r & -> & Hc).
    exists c, r. split; [done|]. unfold opens. by rewrite Hc.
  - eexists _, _; split; reflexivity.
Qed.

Lemma skip_ws_emit v k : skip_ws (emit v k) = emit v k.
Proof.
  destruct (emit_head v k) as (c & r & -> & Hc).
  apply opens_facts in Hc as (Hc & _). simpl. by rewrite Hc.
Qed.

Lemma peek_emit v k :
  peek "]" (emit v k) = None /\ peek "}" (emit v k) = None.
Proof.
  destruct (emit_head v k) as (c & r & -> & Hc).
  apply opens_facts in Hc as (_ & H1 & H2). simpl. by rewrite H1, H2.
Qed.

Lemma parse_value_digit f c r :
  is_digit c = true ->
  parse_value (S f) (String c r) =
    match parse_N (String c r) with
    | Some (n, rest) => Some (Num (Z.of_N n), rest)
    | None => None
    end.
Proof. destruct c as [[] [] [] [] [] [] [] []]; cbn; try discriminate; auto. Qed.

Lemma parse_value_array f r :
  parse_value (S f) (String "[" r) =
    match peek "]" (skip_ws r) with
    | Some rest => Some (Arr [], rest)
    | None =>
        match parse_value f r with
        | Some (x, r1) =>
            match parse_elements f r1 with
            | Some (l, rest) => Some (Arr (x :: l), rest)
            | None => None
            end
        | None => None
        end
    end.
Proof. reflexivity. Qed.

Lemma parse_value_object f r :
  parse_value (S f) (String "{" r) =
    match peek "}" (skip_ws r) with
    | Some rest => Some (Obj [], rest)
    | None =>
        match parse_member f r with
        | Some (p, r1) =>
            match parse_members f r1 with
            | Some (m, rest) => Some (Obj (of_members (p :: m)), rest)
            | None => None
            end
        | None => None
        end
    end.
Proof. reflexivity. Qed.

Lemma parse_elements_close f r : parse_elements (S f) (String "]" r) = Some ([], r).
Proof. reflexivity. Qed.

Lemma parse_elements_comma f r :
  parse_elements (S f) (String "," r) =
    match parse_value f r with
    | Some (x, r1) =>
        match parse_elements f r1 with
        | Some (l, rest) => Some (x :: l, rest)
        | None => None
        end
    | None => None
    end.
Proof. reflexivity. Qed.

Lemma parse_members_close f r : parse_members (S f) (String "}" r) = Some ([], r).
Proof. reflexivity. Qed.

Lemma parse_members_comma f r :
  parse_members (S f) (String "," r) =
    match parse_member f r with
    | Some (p, r1) =>
        match parse_members f r1 with
        | Some (m, rest) => Some (p :: m, rest)
        | None => None
        end
    | None => None
    end.
Proof. reflexivity. Qed.

Lemma parse_member_emit f key v k :
  parse_member (S f) (emit_string key (String ":" (emit v k))) =
    match parse_value f (emit v k) with
    | Some (v', rest) => Some ((key, v'), rest)
    | None => None
    end.
Proof.
  unfold emit_string. cbn [parse_member skip_ws is_ws].
  change (is_ws dquote) with false. cbv iota.
  change (Ascii.eqb dquote dquote) with true. cbv iota.
  rewrite parse_chars_emit. reflexivity.
Qed.

Lemma parse_elements_emit l :
  Forall reads_back l -> Forall wf l ->
  forall fuel k,
    fold_right (fun x rest => S (size x + rest)) 0 l < fuel ->
    parse_elements fuel
      (fold_right (fun y rest => String "," (emit y rest)) (String "]" k) l)
    = Some (l, k).
Proof.
  induction 1 as [|x l Hx _ IH]; intros Hwf fuel k Hfuel;
    (destruct fuel as [|f]; [lia|]); cbn [fold_right] in *.
  - apply parse_elements_close.
  - apply Forall_cons in Hwf as [Hwx Hwl].
    rewrite parse_elements_comma, Hx, IH; auto; try lia.
    destruct l; reflexivity.
Qed.

Lemma parse_members_emit m :
  Forall (fun p => reads_back (snd p)) m -> Forall (fun p => wf (snd p)) m ->
  forall fuel k,
    fold_right (fun p rest => S (size (snd p) + rest)) 0 m < fuel ->
    parse_members fuel
      (fold_right
         (fun q rest =>
            String "," (emit_string (fst q) (String ":" (emit (snd q) rest))))
         (String "}" k) m)
    = Some (m, k).
Proof.
  induction 1 as [|[key v] m Hx _ IH]; intros Hwf fuel k Hfuel;
    (destruct fuel as [|f]; [lia|]); cbn [fold_right fst snd] in *.
  - apply parse_members_close.
  - apply Forall_cons in Hwf as [Hwx Hwl]. cbn [snd] in *.
    destruct f as [|f]; [lia|].
    rewrite parse_members_comma, parse_member_emit, Hx, IH; auto; try lia.
    destruct m; reflexivity.
Qed.

Lemma set_prop_fresh k v m :
  k ∉ map fst m -> set_prop k v m = m ++ [(k, v)].
Proof.
  induction m as [|[k' v'] m IH]; intros Hk; [done|]. cbn [set_prop].
  rewrite fmap_cons, not_elem_of_cons in Hk. destruct Hk as [Hne Hk].
  destruct (String.eqb_spec k k'); [done|]. by rewrite IH.
Qed.

Lemma of_members_from acc ps :
  NoDup (map fst (acc ++ ps)) ->
  fold_left (fun m p => set_prop (fst p) (snd p) m) ps acc = acc ++ ps.
Proof.
  revert acc. induction ps as [|[k v] ps IH]; intros acc Hnd.
  - by rewrite app_nil_r.
  - cbn [fold_left fst snd]. rewrite set_prop_fresh.
    + rewrite IH; rewrite <- app_assoc; done.
    + rewrite map_app in Hnd. apply NoDup_app in Hnd as (_ & Hd & _).
      intros Hin. apply (Hd k Hin). cbn. left.
Qed.

Lemma of_members_nodup ps : NoDup (map fst ps) -> of_members ps = ps.
Proof. intros H. by apply (of_members_from []). Qed.

Lemma parse_value_emit v : reads_back v.
Proof.
  induction v as [| b | n | s | l IH | m IH] using value_ind;
    intros Hwf fuel k Hfuel Hk;
    (destruct fuel as [|f]; [simpl in Hfuel; lia|]).
  - destruct k; reflexivity.
  - destruct b, k; reflexivity.
  - destruct n as [|p|p]; cbn [emit emit_Z].
    + destruct (emit_N_head (Z.to_N 0) k) as (c & r & E & Hc).
      rewrite E, parse_value_digit, <- E, parse_N_emit by done. reflexivity.
    + destruct (emit_N_head (Z.to_N (Z.pos p)) k) as (c & r & E & Hc).
      rewrite E, parse_value_digit, <- E, parse_N_emit by done. reflexivity.
    + cbn [parse_value skip_ws is_ws]. cbn. rewrite parse_N_emit by done.
      reflexivity.
  - cbn [emit]. unfold emit_string. cbn [parse_value skip_ws].
    change (is_ws dquote) with false. cbv iota.
    cbn. rewrite parse_chars_emit. reflexivity.
  - destruct l as [|x l]; [reflexivity|].
    apply wf_Arr in Hwf. apply Forall_cons in Hwf as [Hwx Hwl].
    apply Forall_cons in IH as [Hx IH].
    cbn [emit size fold_right] in *.
    rewrite parse_value_array, skip_ws_emit.
    destruct (peek_emit x
      (fold_right (fun y rest => String "," (emit y rest)) (String "]" k) l))
      as [-> _].
    rewrite Hx, parse_elements_emit; auto; try lia.
    destruct l; reflexivity.
  - destruct m as [|[key v] m]; [reflexivity|].
    apply wf_Obj in Hwf as [Hnd Hwf].
    apply Forall_cons in Hwf as [Hwx Hwl].
    apply Forall_cons in IH as [Hx IH].
    cbn [emit size fold_right fst snd] in *.
    rewrite parse_value_object.
    assert (Hq : forall t, skip_ws (emit_string key t) = emit_string key t)
      by reflexivity.
    assert (Hp : forall t, peek "}" (emit_string key t) = None) by reflexivity.
    rewrite Hq, Hp. destruct f as [|f]; [lia|].
    rewrite parse_member_emit, Hx, parse_members_emit; auto; try lia.
    + by rewrite (of_members_nodup ((key, v) :: m)).
    + destruct m; reflexivity.
Qed.

(** *** [JSON.parse] after [JSON.stringify] *)

Lemma length_append a b :
  String.length (a +:+ b) = String.length a + String.length b.
Proof. induction a as [|c a IH]; [done|]. rewrite append_cons. simpl. by rewrite IH. Qed.

Lemma length_emit_chars s k :
  S (String.length k) <= String.length (emit_chars s k).
Proof.
  induction s as [|c s IH]; cbn [emit_chars]; [simpl; lia|].
  rewrite length_append. lia.
Qed.

Lemma length_emit_N n k : S (String.length k) <= String.length (emit_N n k).
Proof.
  destruct (emit_N_head n EmptyString) as (c & r & E & _).
  unfold emit_N in *. rewrite length_append.
  destruct (NilZero.string_of_uint (N.to_uint n)); [discriminate E|simpl; lia].
Qed.

Lemma length_emit_string s k :
  S (String.length k) <= String.length (emit_string s k).
Proof. unfold emit_string. pose proof (length_emit_chars s k). simpl. lia. Qed.

Lemma length_emit v k :
  size v + String.length k <= String.length (emit v k).
Proof.
  revert k.
  induction v as [| b | n | s | l IH | m IH] using value_ind; intros k.
  - cbn [emit]. rewrite length_append. simpl. lia.
  - destruct b; cbn [emit]; rewrite length_append; simpl; lia.
  - cbn [emit size]. destruct n; cbn [emit_Z String.length];
      match goal with |- context [emit_N ?n k] =>
        pose proof (length_emit_N n k) end; lia.
  - cbn [emit size]. pose proof (length_emit_string s k). lia.
  - destruct l as [|x l]; [cbn [emit]; rewrite length_append; simpl; lia|].
    apply Forall_cons in IH as [Hx IH]. cbn [emit size fold_right].
    cbn [String.length]. specialize (Hx
      (fold_right (fun y rest => String "," (emit y rest)) (String "]" k) l)).
    assert (fold_right (fun x rest => S (size x + rest)) 0 l
            + S (String.length k)
            <= String.length
                 (fold_right (fun y rest => String "," (emit y rest))
                    (String "]" k) l)); [|lia].
    clear Hx. induction IH as [|y l Hy _ IHl]; cbn [fold_right String.length]; [lia|].
    specialize (Hy (fold_right (fun y rest => String "," (emit y rest))
                      (String "]" k) l)). lia.
  - destruct m as [|[key v] m]; [cbn [emit]; rewrite length_append; simpl; lia|].
    apply Forall_cons in IH as [Hx IH]. cbn [emit size fold_right fst snd] in *.
    cbn [String.length].
    set (tail := fold_right _ (String "}" k) m).
    pose proof (length_emit_string key (String ":" (emit v tail))) as Hkey.
    cbn [String.length] in Hkey. specialize (Hx tail).
    assert (fold_right (fun p rest => S (size (snd p) + rest)) 0 m
            + S (String.length k) <= String.length tail); [|lia].
    subst tail. clear Hx Hkey.
    induction IH as [|[key' v'] m Hy _ IHm];
      cbn [fold_right String.length fst snd] in *; [lia|].
    set (tail := fold_right _ (String "}" k) m) in *.
    pose proof (length_emit_string key' (String ":" (emit v' tail))) as Hkey.
    cbn [String.length] in Hkey. specialize (Hy tail). lia.
Qed.

Theorem parse_stringify v : wf v -> parse (stringify v) = Some v.
Proof.
  intros Hwf. unfold parse, stringify.
  pose proof (length_emit v EmptyString) as Hlen.
  rewrite parse_value_emit; [reflexivity|done| |reflexivity].
  simpl in *. lia.
Qed.

Lemma stringify_truthy v : JsString.truthy (stringify v) = true.
Proof.
  unfold stringify. by destruct (emit_head v EmptyString) as (c & r & -> & _).
Qed.

(** *** What [JSON.parse] returns is well formed *)

Lemma set_prop_keys k v m :
  map fst (set_prop k v m)
  = if decide (k ∈ map fst m) then map fst m else map fst m ++ [k].
Proof.
  induction m as [|[k' v'] m IH]; [done|]. cbn [set_prop].
  destruct (String.eqb_spec k k') as [->|Hne]; cbn [map fst].
  - rewrite decide_True by left. done.
  - rewrite IH. destruct (decide (k ∈ map fst m)).
    + rewrite decide_True by (by right). done.
    + rewrite decide_False; [done|]. by intros [?|?]%elem_of_cons.
Qed.

Lemma set_prop_NoDup k v m : NoDup (map fst m) -> NoDup (map fst (set_prop k v m)).
Proof.
  intros H. rewrite set_prop_keys. case_decide; [done|].
  apply NoDup_app. split_and!; [done| |apply NoDup_singleton].
  intros x Hx ->%list_elem_of_singleton. done.
Qed.

Lemma set_prop_Forall (P : string * value -> Prop) k v m :
  P (k, v) -> Forall P m -> Forall P (set_prop k v m).
Proof.
  intros Hp. induction 1 as [|[k' v'] m Hx Hm IH]; cbn [set_prop].
  - by constructor.
  - destruct (String.eqb k k'); constructor; auto.
Qed.

Lemma of_members_wf ps :
  Forall (fun p => wf (snd p)) ps -> wf (Obj (of_members ps)).
Proof.
  intros Hps. apply wf_Obj. unfold of_members.
  assert (Hacc : NoDup (map fst (@nil (string * value)))
                 /\ Forall (fun p => wf (snd p)) (@nil (string * value)))
    by (split; constructor).
  revert Hacc. generalize (@nil (string * value)) as acc.
  induction Hps as [|[k v] ps Hp _ IH]; intros acc [Hnd Hwf]; [done|].
  cbn [fold_left fst snd]. apply IH. split.
  - by apply set_prop_NoDup.
  - by apply set_prop_Forall.
Qed.

Lemma parse_sound fuel :
  (forall s v r, parse_value fuel s = Some (v, r) -> wf v) /\
  (forall s l r, parse_elements fuel s = Some (l, r) -> Forall wf l) /\
  (forall s p r, parse_member fuel s = Some (p, r) -> wf (snd p)) /\
  (forall s m r, parse_members fuel s = Some (m, r) ->
                 Forall (fun p => wf (snd p)) m).
Proof.
  induction fuel as [|f (IHv & IHe & IHp & IHm)]; [by repeat split|].
  split_and!; intros s ? r H; cbn [parse_value parse_elements parse_member
                                    parse_members] in H;
    repeat case_match; simplify_eq;
    lazymatch goal with
    | |- wf (Arr _) => apply wf_Arr; repeat constructor; eauto
    | |- wf (Obj (of_members _)) => apply of_members_wf; constructor; eauto
    | |- wf (Obj []) => apply wf_Obj; split; constructor
    | |- Forall _ _ => constructor; eauto
    | |- _ => cbn; eauto
    end.
Qed.

Theorem parse_wf text v : parse text = Some v -> wf v.
Proof.
  unfold parse. intros H. repeat case_match; simplify_eq.
  eapply parse_sound; eauto.
Qed.
End JSONFacts.

Import JSONFacts.

(** * Facts about the worker *)

(** The fields of a world, after a step. *)
Ltac fields := cbn [faults bucket calls console clock random tail].

(** ** The bucket *)

Lemma list_keys_elem prefix b k :
  k ∈ list_keys prefix b ->
  JsString.startsWith k prefix = true /\ is_Some (b !! k).
Proof.
  unfold list_keys. intros Hk%subseteq_take.
  rewrite merge_sort_Permutation in Hk.
  apply list_elem_of_filter in Hk as [Hp Hk]. split; [done|].
  apply list_elem_of_In, in_map_iff in Hk as ([k' o] & <- & Hin).
  apply list_elem_of_In, elem_of_map_to_list in Hin. eauto.
Qed.

Lemma list_keys_nil prefix b :
  list_keys prefix b = [] <->
  forall k, is_Some (b !! k) -> JsString.startsWith k prefix = false.
Proof.
  unfold list_keys. split.
  - intros Hnil k [o Hk].
    destruct (JsString.startsWith k prefix) eqn:Hp; [exfalso|done].
    assert (Hin : k ∈ filter (fun k => JsString.startsWith k prefix = true)
                        (map fst (map_to_list b))).
    { apply list_elem_of_filter. split; [done|].
      apply list_elem_of_In, in_map_iff. exists (k, o). split; [done|].
      by apply list_elem_of_In, elem_of_map_to_list. }
    rewrite <- (merge_sort_Permutation String.le) in Hin.
    apply take_nil_inv in Hnil as [?|Hnil]; [done|].
    rewrite Hnil in Hin. by apply elem_of_nil in Hin.
  - intros Hall.
    destruct (take 1000 _) as [|k l] eqn:E; [done|exfalso].
    assert (Hk : k ∈ list_keys prefix b) by (unfold list_keys; rewrite E; left).
    apply list_keys_elem in Hk as [Hp Hs]. by rewrite (Hall k Hs) in Hp.
Qed.

Lemma for_each_delete_frame l k w :
  k ∉ l ->
  bucket (snd (for_each l deleteR2Object w)) !! k = bucket w !! k
  /\ console (snd (for_each l deleteR2Object w)) = console w
  /\ (fst (for_each l deleteR2Object w) = Js.Ok tt
      \/ fst (for_each l deleteR2Object w) = Js.Throw Js.StorageError).
Proof.
  revert w. induction l as [|x l IH]; intros w Hk; [by auto|].
  apply not_elem_of_cons in Hk as [Hne Hk].
  destruct w as [b fs c lg ck rd]. cbn [for_each].
  unfold deleteR2Object, R2_delete, bind, call, update_bucket.
  fields.
  destruct fs as [|[] fs]; cbn [fst snd bucket console]; auto.
  - destruct (IH (mkWorld (delete x b) [] (c ++ [CallDelete x]) lg ck rd) Hk)
      as (Hb & Hc & Hr).
    destruct (for_each l _ _) as [r w']. cbn [fst snd bucket console] in *.
    rewrite Hb, lookup_delete_ne by done. auto.
  - destruct (IH (mkWorld (delete x b) fs (c ++ [CallDelete x]) lg ck rd) Hk)
      as (Hb & Hc & Hr).
    destruct (for_each l _ _) as [r w']. cbn [fst snd bucket console] in *.
    rewrite Hb, lookup_delete_ne by done. auto.
Qed.

(** ** The router *)

(** Every literal of every expression of the table is a plain
    character: each expression is read as JavaScript reads it. *)
Lemma routes_plain :
  forallb (fun entry =>
             forallb Regex.plain_item
               (route_regex (nth 1 (JsString.split " " (fst entry)) EmptyString)))
          routes = true.
Proof. reflexivity. Qed.

(** The two-placeholder route compiles to the expression of the
    [DELETE /api/artists/(.+)] route before it. *)
Lemma delete_photo_regex :
  Regex.replace_groups "/api/artists/(.+)/photos/(.+)" = "/api/artists/([^/]+)"
  /\ route_regex "/api/artists/(.+)/photos/(.+)" = route_regex "/api/artists/(.+)".
Proof. split; reflexivity. Qed.

Lemma exec_length r : forall s caps,
  Regex.exec r s = Some caps ->
  length caps
  = length (List.filter
              (fun i => match i with Regex.Segment => true | _ => false end) r).
Proof.
  induction r as [|[c|] r IH]; intros s caps H; cbn [Regex.exec] in H.
  - by destruct s; simplify_eq.
  - destruct s as [|c' s]; [done|]. case_match; [|done]. cbn. eauto.
  - cbn [List.filter length]. revert H. generalize (Regex.segment_span s) as n.
    induction n as [|n IHn]; intros H; [done|]. cbn [Regex.try_lengths] in H.
    destruct (Regex.exec r _) as [caps'|] eqn:E; [|by apply IHn].
    simplify_eq. cbn. f_equal. eauto.
Qed.

Lemma find_route_selects table method path h ps :
  find_route table method path = Some (h, ps) ->
  selects (map compile_entry table) method path h ps.
Proof.
  induction table as [|[pat h'] table IH]; [done|].
  cbn [find_route map selects compile_entry fst snd].
  destruct (String.eqb_spec method (nth 0 (JsString.split " " pat) EmptyString))
    as [->|Hne].
  - destruct (Regex.exec _ path) as [caps|] eqn:E.
    + intros [= <- <-]. by left.
    + intros H. right. split; [|by apply IH]. by intros [_ ?].
  - intros H. right. split; [|by apply IH]. by intros [? _].
Qed.

Lemma routes_selects method path h ps :
  find_route routes method path = Some (h, ps) ->
  selects compiled_routes method path h ps.
Proof. apply find_route_selects. Qed.

Lemma find_route_compiled table method path :
  find_route table method path
  = find_compiled (map compile_entry table) method path.
Proof.
  induction table as [|[pat h] table IH]; [done|].
  cbn [find_route map find_compiled compile_entry fst snd]. by rewrite IH.
Qed.

Theorem deletePhoto_unreachable method path params :
  find_route routes method path <> Some (H_deletePhoto, params).
Proof.
  intros H%routes_selects. unfold compiled_routes in H. cbn [selects] in H.
  repeat (destruct H as [(_ & _ & ?)|[? H]]; [discriminate|]).
  destruct H as [(-> & E & _)|[? H]].
  - match goal with Hn : ~ ("DELETE" = "DELETE" /\ _) |- _ => apply Hn end.
    split; [done|]. by rewrite E.
  - repeat (destruct H as [(_ & _ & ?)|[? H]]; [discriminate|]). done.
Qed.

Theorem route_arity method path h params :
  find_route routes method path = Some (h, params) ->
  length params = arity h.
Proof.
  intros H.
  assert (Hne : h <> H_deletePhoto)
    by (intros ->; by apply deletePhoto_unreachable in H).
  apply routes_selects in H. unfold compiled_routes in H. cbn [selects] in H.
  repeat (destruct H as [(_ & E & ->)|[_ H]];
          [first [done | by apply exec_length in E]|]).
  done.
Qed.

Lemma segment_span_append a rest :
  Regex.segment_span a = String.length a -> at_boundary rest ->
  Regex.segment_span (a +:+ rest) = String.length a.
Proof.
  intros Ha Hrest. induction a as [|c a IH].
  - rewrite append_nil. by destruct Hrest as [->|[t ->]].
  - rewrite append_cons. cbn [Regex.segment_span String.length] in *.
    destruct (Ascii.eqb c "/"); [done|]. f_equal. apply IH. lia.
Qed.

Lemma substr_append a rest : JsString.substr (String.length a) (a +:+ rest) = rest.
Proof. induction a as [|c a IH]; [by destruct rest|]. by rewrite append_cons. Qed.

Lemma take_append a rest : JsString.take (String.length a) (a +:+ rest) = a.
Proof.
  induction a as [|c a IH]; [by destruct rest|].
  rewrite append_cons. cbn. by rewrite IH.
Qed.

Lemma substr_inside a rest j :
  Regex.segment_span a = String.length a -> j < String.length a ->
  exists c t, JsString.substr j (a +:+ rest) = String c t /\ Ascii.eqb c "/" = false.
Proof.
  revert j. induction a as [|c a IH]; intros j Ha Hj; [simpl in Hj; lia|].
  rewrite append_cons. cbn [Regex.segment_span String.length] in *.
  destruct (Ascii.eqb c "/") eqn:Hc; [done|].
  destruct j as [|j]; [by eexists _, _|]. cbn [JsString.substr].
  apply IH; lia.
Qed.

Lemma exec_inside a rest r j :
  Regex.segment_span a = String.length a -> j < String.length a ->
  after_segment r ->
  Regex.exec r (JsString.substr j (a +:+ rest)) = None.
Proof.
  intros Ha Hj Hr. destruct (substr_inside a rest j Ha Hj) as (c & t & -> & Hc).
  destruct Hr as [->|[r' ->]]; [reflexivity|]. cbn [Regex.exec].
  rewrite Ascii.eqb_sym, Hc. done.
Qed.

Lemma try_lengths_inside a rest r n :
  Regex.segment_span a = String.length a -> n < String.length a ->
  after_segment r ->
  Regex.try_lengths (Regex.exec r) n (a +:+ rest) = None.
Proof.
  intros Ha Hn Hr. induction n as [|n IH]; [done|].
  cbn [Regex.try_lengths]. rewrite exec_inside by done. apply IH. lia.
Qed.

Lemma exec_segment a rest r :
  is_segment a -> at_boundary rest -> after_segment r ->
  Regex.exec (Regex.Segment :: r) (a +:+ rest)
  = match Regex.exec r rest with
    | Some caps => Some (a :: caps)
    | None => None
    end.
Proof.
  intros [Hne Ha] Hrest Hr. cbn [Regex.exec].
  rewrite segment_span_append by done.
  destruct (String.length a) as [|n] eqn:Hlen; [by destruct a|].
  cbn [Regex.try_lengths]. rewrite <- Hlen, substr_append, take_append.
  destruct (Regex.exec r rest); [done|].
  apply try_lengths_inside; [congruence|lia|done].
Qed.

Lemma append_empty a : a +:+ EmptyString = a.
Proof. induction a as [|c a IH]; [done|]. by rewrite append_cons, IH. Qed.

Lemma exec_lit_eq c r s :
  Regex.exec (Regex.Lit c :: r) (String c s) = Regex.exec r s.
Proof. cbn [Regex.exec]. by rewrite Ascii.eqb_refl. Qed.

Lemma exec_lit_ne c c' r s :
  Ascii.eqb c c' = false -> Regex.exec (Regex.Lit c :: r) (String c' s) = None.
Proof. intros H. cbn [Regex.exec]. by rewrite H. Qed.

Lemma exec_end_more c s : Regex.exec [] (String c s) = None.
Proof. reflexivity. Qed.

Ltac run_router :=
  rewrite (find_route_compiled routes);
  change (map compile_entry routes) with compiled_routes;
  unfold compiled_routes;
  rewrite ?append_cons, ?append_nil;
  cbn [find_compiled String.eqb Ascii.eqb Bool.eqb];
  repeat first
    [ rewrite exec_lit_eq
    | rewrite exec_lit_ne by reflexivity
    | rewrite exec_end_more
    | rewrite exec_segment by (first [done | by left | by right; eexists])
    | progress cbv beta iota ].

Theorem dispatch_one_segment a :
  is_segment a ->
  find_route routes "GET" ("/api/artists/" +:+ a) = Some (H_getArtist, [a])
  /\ find_route routes "PUT" ("/api/artists/" +:+ a) = Some (H_updateArtist, [a])
  /\ find_route routes "DELETE" ("/api/artists/" +:+ a) = Some (H_deleteArtist, [a])
  /\ find_route routes "GET" ("/api/artists/" +:+ a +:+ "/photos")
     = Some (H_getArtistPhotos, [a])
  /\ find_route routes "POST" ("/api/artists/" +:+ a +:+ "/photos")
     = Some (H_uploadPhoto, [a])
  /\ find_route routes "PUT" ("/api/artists/" +:+ a +:+ "/main-photo")
     = Some (H_setMainPhoto, [a])
  /\ find_route routes "GET" ("/api/artists/" +:+ a +:+ "/filmography")
     = Some (H_getFilmography, [a])
  /\ find_route routes "PUT" ("/api/artists/" +:+ a +:+ "/filmography")
     = Some (H_updateFilmography, [a]).
Proof.
  intros Ha.
  split_and!.
  1-3: rewrite <- (append_empty a) at 1.
  all: run_router; reflexivity.
Qed.

Theorem dispatch_no_segment :
  find_route routes "GET" "/api/artists" = Some (H_getArtists, [])
  /\ find_route routes "POST" "/api/artists" = Some (H_createArtist, [])
  /\ find_route routes "GET" "/api/export/artists" = Some (H_exportArtistsData, [])
  /\ find_route routes "GET" "/api/export/filmography"
     = Some (H_exportFilmographyData, []).
Proof. repeat split. Qed.

(** The request the two-placeholder route is written for finds no
    route at all. *)
Theorem delete_photo_path_unrouted a p :
  is_segment a -> is_segment p ->
  find_route routes "DELETE" ("/api/artists/" +:+ a +:+ "/photos/" +:+ p) = None.
Proof.
  intros Ha Hp. run_router. reflexivity.
Qed.

Theorem unrouted_request_404 request w :
  find_route routes (method request) (pathname request) = None ->
  handleApiRequest request w = (Js.Ok not_found, w).
Proof. intros H. unfold handleApiRequest. by rewrite H. Qed.

(** C1 (the code departs from the claim): a DELETE request to
    [/api/artists/a1/photos/p1] is not dispatched to [deletePhoto] with
    the two ids: no entry of the table matches it and the router answers
    with the 404 JSON body.  The replacement [/\(.+\)/g] is greedy and
    rewrites the whole of [(.+)/photos/(.+)] into one group, so that the
    expression of the route is that of [DELETE /api/artists/(.+)]. *)
Theorem delete_photo_request_404 payload w :
  handleApiRequest (mkRequest "DELETE" "/api/artists/a1/photos/p1" payload) w
  = (Js.Ok not_found, w)
  /\ status not_found = 404
  /\ content not_found = JSON.stringify (JSON.Obj [("error", JSON.Str "Not Found")]).
Proof. repeat split. Qed.

(** ** Filmography *)


(** C7: when the bucket holds no filmography document for [artistId],
    the GET returns status 200 with the empty default
    [{dramas: [], movies: [], commercials: []}], whether the read
    succeeds or throws. *)
Theorem getFilmography_absent artistId w :
  bucket w !! filmography_key artistId = None ->
  fst (getFilmography artistId w) = Js.Ok (json_response 200 empty_filmography).
Proof.
  intros Habs. destruct w as [b fs c l ck rd]. cbn [bucket] in Habs.
  unfold getFilmography, getR2Object, R2_get, try_catch, bind, call.
  destruct fs as [|[] fs]; cbn; rewrite ?Habs; try reflexivity.
Qed.

(** C7 where the read of the document throws. *)
Lemma getFilmography_absent_witness :
  fst (getFilmography "a" (quiet one_artist [true]))
  = Js.Ok (json_response 200 empty_filmography).
Proof.
  apply (getFilmography_absent "a" (quiet one_artist [true])).
  vm_compute; reflexivity.
Defined.



(** ** The artist collection *)

(** Reading the collection document back, as every artist handler
    starts: an absent or empty document stands for the empty list. *)
Lemma parse_collection b artists w :
  (forall fs c lg ck rd, stored_artists (mkWorld b fs c lg ck rd) artists) ->
  parse_or (match b !! "data/artists.json" with
            | Some o => Some (body o)
            | None => None
            end) (JSON.Arr []) w
  = (Js.Ok (JSON.Arr artists), w).
Proof.
  intros Hst. specialize (Hst [] [] [] [] []).
  unfold stored_artists in Hst. cbn [bucket] in Hst.
  destruct (b !! "data/artists.json") as [o|]; cbn [parse_or]; [|by subst].
  unfold JSON_parse.
  destruct (JsString.truthy (body o)); [by rewrite Hst|by subst].
Qed.

Lemma stored_artists_wf w artists :
  stored_artists w artists -> JSON.wf (JSON.Arr artists).
Proof.
  unfold stored_artists. intros H. repeat case_match; subst; try done.
  by apply parse_wf in H.
Qed.

Lemma stored_artists_document w artists :
  JSON.wf (JSON.Arr artists) ->
  bucket w !! "data/artists.json" = Some (collection_document artists) ->
  stored_artists w artists.
Proof.
  intros Hwf Hb. unfold stored_artists. rewrite Hb. unfold collection_document.
  cbn [body]. by rewrite stringify_truthy, parse_stringify.
Qed.

(** *** Updating an artist *)

Lemma findIndex_absent artistId artists w :
  absent artistId artists -> findIndex artistId artists w = (Js.Ok None, w).
Proof.
  induction 1 as [|a l Ha _ IH]; [reflexivity|].
  cbn [findIndex]. unfold bind, lift. rewrite Ha, IH. reflexivity.
Qed.

(** C2: updating an artist whose id no record of the stored collection
    carries returns 404 [Artist not found]; the only call made to the
    bucket is the read of the collection, so its objects are unchanged. *)
Theorem updateArtist_unknown_id artistId request text updateData artists w :
  payload request = TextBody text ->
  JSON.parse text = Some updateData ->
  stored_artists w artists ->
  absent artistId artists ->
  exists w',
    updateArtist artistId request w
    = (Js.Ok (error_response 404 "Artist not found"), w')
    /\ bucket w' = bucket w
    /\ calls w' = calls w ++ [CallGet "data/artists.json"].
Proof.
  intros Hp Hjson Hst Habs. destruct w as [b fs c l ck rd].
  unfold stored_artists in Hst. cbn [bucket] in Hst.
  unfold updateArtist, request_json, JSON_parse, getR2Object, R2_get.
  rewrite Hp, Hjson.
  unfold try_catch, bind, call, ret, console_error.
  destruct fs as [|[] fs]; fields;
    try (destruct (b !! "data/artists.json") as [o|] eqn:Hb;
         cbn [parse_or]; unfold JSON_parse;
         [destruct (JsString.truthy (body o)); [rewrite Hst|subst artists]
         |subst artists]);
    cbn [parse_or as_array ret]; rewrite ?findIndex_absent by (done || constructor);
    eexists; (split; [reflexivity|split; reflexivity]).
Qed.

(** C2 on a collection of one artist and an id it does not hold. *)
Lemma updateArtist_unknown_id_witness :
  exists w',
    updateArtist "zz" (named "X") (quiet one_artist [])
    = (Js.Ok (error_response 404 "Artist not found"), w')
    /\ bucket w' = bucket (quiet one_artist [])
    /\ calls w' = calls (quiet one_artist []) ++ [CallGet "data/artists.json"].
Proof.
  apply (updateArtist_unknown_id "zz" (named "X")
           (JSON.stringify (JSON.Obj [("name", JSON.Str "X")]))
           (JSON.Obj [("name", JSON.Str "X")]) [artist_A]).
  - reflexivity.
  - vm_compute; reflexivity.
  - vm_compute; reflexivity.
  - repeat constructor.
Defined.

(** *** Deleting an artist *)

Lemma photo_cleanup_spec artistId w :
  exists w',
    photo_cleanup artistId w = (Js.Ok tt, w')
    /\ (forall k,
          JsString.startsWith k ("artists/" +:+ artistId +:+ "/") = false ->
          bucket w' !! k = bucket w !! k)
    /\ (console w' = console w
        \/ console w'
           = console w ++ [(LogWarn, "Photo deletion error:", Js.StorageError)]).
Proof.
  destruct w as [b fs c lg ck rd].
  unfold photo_cleanup, R2_list, try_catch, bind, call, console_warn.
  fields.
  assert (Hnot : forall k,
            JsString.startsWith k ("artists/" +:+ artistId +:+ "/") = false ->
            k ∉ list_keys ("artists/" +:+ artistId +:+ "/") b).
  { intros k Hk [Hp _]%list_keys_elem. congruence. }
  destruct fs as [|[] fs]; fields; cbn [fst snd].
  - destruct (for_each (list_keys _ b) deleteR2Object _) as [r w'] eqn:E.
    assert (Hframe := fun k Hk =>
      for_each_delete_frame _ k
        (mkWorld b [] (c ++ [CallList ("artists/" +:+ artistId +:+ "/")]) lg ck rd)
        (Hnot k Hk)).
    rewrite E in Hframe. cbn [fst snd bucket console] in Hframe.
    destruct r as [[]|e].
    + eexists. split; [reflexivity|]. split; [apply Hframe|].
      left. apply (Hframe "data/artists.json" eq_refl).
    + destruct (Hframe "data/artists.json" eq_refl) as (_ & Hc & [?|[= ->]]);
        [done|].
      eexists. split; [reflexivity|]. cbn [bucket console]. rewrite Hc.
      split; [apply Hframe|by right].
  - eexists. split; [reflexivity|]. cbn [bucket console]. auto.
  - destruct (for_each (list_keys _ b) deleteR2Object _) as [r w'] eqn:E.
    assert (Hframe := fun k Hk =>
      for_each_delete_frame _ k
        (mkWorld b fs (c ++ [CallList ("artists/" +:+ artistId +:+ "/")]) lg ck rd)
        (Hnot k Hk)).
    rewrite E in Hframe. cbn [fst snd bucket console] in Hframe.
    destruct r as [[]|e].
    + eexists. split; [reflexivity|]. split; [apply Hframe|].
      left. apply (Hframe "data/artists.json" eq_refl).
    + destruct (Hframe "data/artists.json" eq_refl) as (_ & Hc & [?|[= ->]]);
        [done|].
      eexists. split; [reflexivity|]. cbn [bucket console]. rewrite Hc.
      split; [apply Hframe|by right].
Qed.

Lemma filter_out_spec artistId artists w :
  Forall (fun a => a <> JSON.Null) artists ->
  filter_out artistId artists w = (Js.Ok (without artistId artists), w).
Proof.
  induction 1 as [|a l Ha _ IH]; [reflexivity|].
  cbn [filter_out without List.filter]. unfold bind, lift, ret, has_id.
  fold (without artistId l). rewrite IH.
  destruct a; try done; cbn; by repeat case_match.
Qed.

Lemma absent_not_null artistId artists :
  absent artistId artists -> Forall (fun a => a <> JSON.Null) artists.
Proof. intros H. eapply Forall_impl; [exact H|]. by intros a Ha ->. Qed.

Lemma without_absent artistId artists :
  absent artistId artists -> without artistId artists = artists.
Proof.
  induction 1 as [|a l Ha _ IH]; [done|].
  cbn [without List.filter]. unfold has_id. rewrite Ha. cbn.
  by rewrite <- IH at 2.
Qed.

(** What [deleteArtist] does when the three calls before the photo
    clean-up succeed, whatever happens during the clean-up. *)
Lemma deleteArtist_spec artistId artists w fs :
  stored_artists w artists ->
  Forall (fun a => a <> JSON.Null) artists ->
  faults w = false :: false :: false :: fs ->
  exists w',
    deleteArtist artistId w = (Js.Ok (json_response 200 success), w')
    /\ bucket w' !! "data/artists.json"
       = Some (collection_document (without artistId artists))
    /\ bucket w' !! filmography_key artistId = None
    /\ (console w' = console w
        \/ console w'
           = console w ++ [(LogWarn, "Photo deletion error:", Js.StorageError)]).
Proof.
  intros Hst Hnn Hf. destruct w as [b fs' c lg ck rd]. cbn [faults] in Hf. subst fs'.
  unfold deleteArtist. fold (photo_cleanup artistId).
  unfold getR2Object, putR2Object, deleteR2Object, R2_get, R2_put, R2_delete.
  unfold try_catch at 1. unfold try_catch at 1.
  unfold bind, call, ret, update_bucket.
  fields.
  rewrite (parse_collection b artists) by done.
  cbn [as_array ret]. rewrite filter_out_spec by done.
  fields.
  match goal with |- context [photo_cleanup artistId ?w0] =>
    destruct (photo_cleanup_spec artistId w0) as (w' & -> & Hb & Hc) end.
  cbn [bucket console] in Hb, Hc.
  exists w'. split; [reflexivity|]. split_and!; [| |done].
  - rewrite Hb, lookup_delete_ne, lookup_insert_eq by done. reflexivity.
  - rewrite Hb by done. apply lookup_delete_eq.
Qed.

(** C10: deleting an id that no record of the collection carries
    returns the success response, not 404, and writes the collection back
    as it was read; deleting the id a second time leaves the stored
    document as the first deletion left it. *)
Theorem deleteArtist_unknown_id artistId artists w fs fs1 :
  stored_artists w artists ->
  absent artistId artists ->
  faults w = false :: false :: false :: fs ->
  faults (snd (deleteArtist artistId w)) = false :: false :: false :: fs1 ->
  exists w1 w2,
    deleteArtist artistId w = (Js.Ok (json_response 200 success), w1)
    /\ bucket w1 !! "data/artists.json" = Some (collection_document artists)
    /\ stored_artists w1 artists
    /\ deleteArtist artistId w1 = (Js.Ok (json_response 200 success), w2)
    /\ bucket w2 !! "data/artists.json" = bucket w1 !! "data/artists.json".
Proof.
  intros Hst Habs Hf Hf1.
  pose proof (stored_artists_wf _ _ Hst) as Hwf.
  pose proof (absent_not_null _ _ Habs) as Hnn.
  destruct (deleteArtist_spec artistId artists w fs Hst Hnn Hf)
    as (w1 & Hrun & Hb & _).
  rewrite Hrun in Hf1. cbn [snd] in Hf1.
  rewrite without_absent in Hb by done.
  pose proof (stored_artists_document w1 artists Hwf Hb) as Hst1.
  destruct (deleteArtist_spec artistId artists w1 fs1 Hst1 Hnn Hf1)
    as (w2 & Hrun2 & Hb2 & _).
  rewrite without_absent in Hb2 by done.
  exists w1, w2. split_and!; [done..|]. by rewrite Hb, Hb2.
Qed.

(** C10 on a collection of one artist and an id it does not hold. *)
Lemma deleteArtist_unknown_id_witness :
  exists w1 w2,
    deleteArtist "zz" (quiet one_artist (repeat false 8))
    = (Js.Ok (json_response 200 success), w1)
    /\ bucket w1 !! "data/artists.json" = Some (collection_document [artist_A])
    /\ stored_artists w1 [artist_A]
    /\ deleteArtist "zz" w1 = (Js.Ok (json_response 200 success), w2)
    /\ bucket w2 !! "data/artists.json" = bucket w1 !! "data/artists.json".
Proof.
  apply (deleteArtist_unknown_id "zz" [artist_A] _ (repeat false 5) [false]).
  - vm_compute; reflexivity.
  - repeat constructor.
  - reflexivity.
  - vm_compute; reflexivity.
Defined.

(** C4, as stated, fails: when the delete of the filmography document
    throws (the third call to the bucket), after the filtered collection
    has been written back, [deleteArtist] answers 500; that call stands
    outside the inner [try]. *)
Lemma deleteArtist_filmography_error_fails :
  exists w',
    deleteArtist "a" (quiet one_artist [false; false; true])
    = (Js.Ok (error_response 500 "Failed to delete artist"), w')
    /\ bucket w' !! "data/artists.json" = Some (collection_document [])
    /\ calls w' = [CallGet "data/artists.json"; CallPut "data/artists.json";
                   CallDelete "data/filmography/a.json"]
    /\ console w' = [(LogError, "deleteArtist error:", Js.StorageError)]
    /\ error_response 500 "Failed to delete artist" <> json_response 200 success.
Proof.
  eexists. split; [vm_compute; reflexivity|].
  split; [vm_compute; reflexivity|].
  split; [reflexivity|]. split; [reflexivity|]. discriminate.
Qed.

(** C4 (amended): once the filtered collection has been written back
    and the filmography document deleted, whatever error is raised while
    listing or deleting the objects under the artist's photo prefix is
    swallowed: [deleteArtist] returns the success response, and the
    console receives at most the warning [Photo deletion error:]. *)
Theorem deleteArtist_photo_errors_swallowed artistId artists w fs :
  stored_artists w artists ->
  Forall (fun a => a <> JSON.Null) artists ->
  faults w = false :: false :: false :: fs ->
  exists w',
    deleteArtist artistId w = (Js.Ok (json_response 200 success), w')
    /\ bucket w' !! "data/artists.json"
       = Some (collection_document (without artistId artists))
    /\ bucket w' !! filmography_key artistId = None
    /\ (console w' = console w
        \/ console w'
           = console w ++ [(LogWarn, "Photo deletion error:", Js.StorageError)]).
Proof. apply deleteArtist_spec. Qed.

(** C4 (amended) where the delete of the one object under the prefix
    throws. *)
Lemma deleteArtist_photo_errors_swallowed_witness :
  exists w',
    deleteArtist "a" (quiet with_photo [false; false; false; false; true])
    = (Js.Ok (json_response 200 success), w')
    /\ bucket w' !! "data/artists.json"
       = Some (collection_document (without "a" [artist_A]))
    /\ bucket w' !! filmography_key "a" = None
    /\ (console w' = console (quiet with_photo [false; false; false; false; true])
        \/ console w'
           = console (quiet with_photo [false; false; false; false; true])
             ++ [(LogWarn, "Photo deletion error:", Js.StorageError)]).
Proof.
  apply (deleteArtist_photo_errors_swallowed "a" [artist_A] _ [false; true]).
  - vm_compute; reflexivity.
  - repeat constructor; discriminate.
  - reflexivity.
Defined.

(** *** Creating an artist *)

Lemma attach_main_photo_spec a w :
  is_object a = true -> faults w = [] ->
  exists w',
    attach_main_photo a w = (Js.Ok (with_main_photo (bucket w) a), w')
    /\ reads_only w w'.
Proof.
  intros Ha Hf. destruct a as [| | | | |m]; try discriminate Ha.
  destruct w as [b fs c lg ck rd]. cbn [faults] in Hf. subst fs.
  unfold attach_main_photo, getMainPhotoUrl, getR2ObjectUrl, R2_get, assign,
    try_catch, bind, call, ret, lift, reads_only.
  cbn [Js.get_prop faults bucket calls console clock random tail with_main_photo].
  destruct (b !! _); eexists; (split; [reflexivity|]); cbn; auto.
Qed.

Lemma map_each_attach artists w :
  forallb is_object artists = true -> faults w = [] ->
  exists w',
    map_each artists attach_main_photo w
    = (Js.Ok (map (with_main_photo (bucket w)) artists), w')
    /\ reads_only w w'.
Proof.
  revert w. induction artists as [|a l IH]; intros w Hobj Hf.
  - exists w. by repeat split.
  - cbn [forallb] in Hobj. apply andb_true_iff in Hobj as [Ha Hl].
    destruct (attach_main_photo_spec a w Ha Hf) as (w1 & Ea & Hb1 & Hf1 & Hc1 & Hk1 & Hr1).
    destruct (IH w1 Hl) as (w2 & El & Hb2 & Hf2 & Hc2 & Hk2 & Hr2); [congruence|].
    exists w2. cbn [map_each map]. unfold bind, ret. rewrite Ea, El, Hb1.
    repeat split; congruence.
Qed.

Lemma set_prop_wf k v m :
  JSON.wf v -> JSON.wf (JSON.Obj m) -> JSON.wf (JSON.Obj (JSON.set_prop k v m)).
Proof.
  rewrite !wf_Obj. intros Hv [Hnd Hm]. split.
  - by apply set_prop_NoDup.
  - by apply set_prop_Forall.
Qed.

Lemma with_main_photo_wf b a : JSON.wf a -> JSON.wf (with_main_photo b a).
Proof.
  destruct a; try done. unfold with_main_photo. intros Hwf.
  case_match; [|done]. by apply set_prop_wf.
Qed.

Lemma getArtists_spec artists w :
  stored_artists w artists ->
  forallb is_object artists = true ->
  faults w = [] ->
  exists w',
    getArtists w
    = (Js.Ok (json_response 200
                (JSON.Arr (map (with_main_photo (bucket w)) artists))), w')
    /\ reads_only w w'.
Proof.
  intros Hst Hobj Hf. destruct w as [b fs c lg ck rd]. cbn [faults] in Hf. subst fs.
  unfold getArtists, getR2Object, R2_get.
  unfold try_catch, bind, call, ret.
  fields.
  rewrite (parse_collection b artists) by done. cbn [iterate ret].
  match goal with |- context [map_each artists attach_main_photo ?w0] =>
    destruct (map_each_attach artists w0 Hobj eq_refl) as (w' & -> & Hro) end.
  cbn [bucket] in *. exists w'. split; [reflexivity|].
  unfold reads_only in *. cbn [bucket faults console clock random] in *. done.
Qed.




(** ** Photos *)

(** C6: an upload whose form data has no [photo] field returns 400
    [No photo provided] and leaves the world as it was: not one call is
    made to the bucket. *)
Theorem uploadPhoto_missing_file artistId request fields w :
  payload request = FormBody fields ->
  formData_get fields "photo" = None ->
  uploadPhoto artistId request w
  = (Js.Ok (error_response 400 "No photo provided"), w).
Proof.
  intros Hp Hf. unfold uploadPhoto, try_catch, bind, request_formData.
  rewrite Hp. cbn. rewrite Hf. reflexivity.
Qed.

(** C6 on a form with a caption only. *)
Lemma uploadPhoto_missing_file_witness :
  uploadPhoto "a"
    (mkRequest "POST" "/api/artists/a/photos" (FormBody [("caption", FieldString "x")]))
    (quiet one_artist [])
  = (Js.Ok (error_response 400 "No photo provided"), quiet one_artist []).
Proof.
  apply (uploadPhoto_missing_file "a" _ [("caption", FieldString "x")]).
  - reflexivity.
  - reflexivity.
Defined.

Lemma split_no_sep sep s :
  Forall (fun c => c <> sep) (list_ascii_of_string s) ->
  JsString.split sep s = [s].
Proof.
  induction s as [|c s IH]; [done|]. cbn [list_ascii_of_string JsString.split].
  intros [Hc Hs]%Forall_cons. rewrite IH by done.
  by destruct (Ascii.eqb_spec c sep).
Qed.

Lemma split_two sep a b :
  exists h x t, JsString.split sep (a +:+ String sep b) = h :: x :: t.
Proof.
  induction a as [|c a (h & x & t & IH)].
  - rewrite append_nil. cbn [JsString.split]. rewrite Ascii.eqb_refl.
    destruct b as [|c b]; cbn [JsString.split]; [by eexists _, _, _|].
    destruct (Ascii.eqb c sep); [by eexists _, _, _|].
    destruct (JsString.split sep b); by eexists _, _, _.
  - rewrite append_cons. cbn [JsString.split]. rewrite IH.
    destruct (Ascii.eqb c sep); by eexists _, _, _.
Qed.

Lemma split_last sep a b d :
  List.last (JsString.split sep (a +:+ String sep b)) d
  = List.last (JsString.split sep b) d.
Proof.
  induction a as [|c a IH].
  - rewrite append_nil. cbn [JsString.split]. rewrite Ascii.eqb_refl.
    destruct b as [|c b]; [done|]. cbn [JsString.split].
    destruct (Ascii.eqb c sep); [done|]. by destruct (JsString.split sep b).
  - rewrite append_cons. cbn [JsString.split].
    destruct (split_two sep a b) as (h & x & t & E). rewrite E in *.
    destruct (Ascii.eqb c sep); exact IH.
Qed.

Theorem fileExtension_without_dot file_name :
  file_name <> EmptyString -> no_dot file_name ->
  fileExtension file_name = file_name.
Proof.
  intros Hne Hnd. unfold fileExtension. rewrite split_no_sep by done.
  by destruct file_name.
Qed.

Theorem fileExtension_with_dot base ext :
  ext <> EmptyString -> no_dot ext ->
  fileExtension (base +:+ String "." ext) = ext.
Proof.
  intros Hne Hnd. unfold fileExtension.
  rewrite split_last, split_no_sep by done. by destruct ext.
Qed.

Theorem fileExtension_default base :
  fileExtension EmptyString = "jpg" /\ fileExtension (base +:+ ".") = "jpg".
Proof.
  split; [reflexivity|]. unfold fileExtension. by rewrite split_last.
Qed.

Theorem uploadPhoto_stores artistId request fields photo w fs :
  payload request = FormBody fields ->
  formData_get fields "photo" = Some (FieldFile photo) ->
  faults w = false :: fs ->
  let key := photo_key artistId (next_id w) (fileExtension (name photo)) in
  exists w',
    uploadPhoto artistId request w
    = (Js.Ok (json_response 200
                (JSON.Obj [("success", JSON.Bool true);
                           ("photoId", JSON.Str (next_id w));
                           ("url", JSON.Str ("https://your-r2-domain.com/" +:+ key))])),
       w')
    /\ bucket w' = <[key := mkR2Object (stream photo) (Some (type photo))]> (bucket w)
    /\ calls w' = calls w ++ [CallPut key].
Proof.
  intros Hp Hphoto Hf key. destruct w as [b fs' c lg ck rd].
  cbn [faults] in Hf. subst fs'.
  unfold uploadPhoto, request_formData. rewrite Hp.
  unfold try_catch, bind, ret. rewrite Hphoto.
  unfold generateId, Date_new, Math_random_toString36, R2_put, getR2ObjectUrl,
    bind, ret, call, update_bucket.
  fields.
  eexists. split; [reflexivity|]. done.
Qed.

(** C5 (the code departs from the claim): for a file named [photo], a
    name without extension, [split('.').pop()] is the whole name, which
    is truthy: the object is stored under a key ending in [.photo] and
    nothing is stored under the default [.jpg]. *)
Theorem uploadPhoto_name_without_dot :
  fileExtension "photo" = "photo"
  /\ exists w',
       uploadPhoto "a"
         (mkRequest "POST" "/api/artists/a/photos"
            (FormBody [("photo", FieldFile (mkFile "photo" "image/png" "PNG"))]))
         (quiet one_artist [])
       = (Js.Ok (json_response 200
            (JSON.Obj [("success", JSON.Bool true);
                       ("photoId", JSON.Str "m2r1bz7k4fzyo82mvyr");
                       ("url",
                        JSON.Str ("https://your-r2-domain.com/"
                                  +:+ "artists/a/photos/m2r1bz7k4fzyo82mvyr.photo"))])),
          w')
       /\ calls w' = [CallPut "artists/a/photos/m2r1bz7k4fzyo82mvyr.photo"]
       /\ bucket w' !! "artists/a/photos/m2r1bz7k4fzyo82mvyr.jpg" = None.
Proof.
  split; [reflexivity|]. eexists. split; [vm_compute; reflexivity|].
  split; [reflexivity|]. vm_compute. reflexivity.
Qed.

(** C9: for a request carrying [photoId], the three calls to the bucket
    succeeding, [setMainPhoto] returns 404 exactly when no stored key
    starts with [artists/{artistId}/photos/{photoId}]; otherwise the
    first key listed is read, its bytes and content type are written to
    [artists/{artistId}/main.jpg], and the success response is
    returned. *)
Theorem setMainPhoto_spec artistId request text data photoId w fs :
  payload request = TextBody text ->
  JSON.parse text = Some data ->
  Js.get_prop data "photoId" = Js.Ok photoId ->
  faults w = false :: false :: false :: fs ->
  let prefix := photo_prefix artistId (Js.template photoId) in
  exists res w',
    setMainPhoto artistId request w = (Js.Ok res, w')
    /\ (status res = 404 <->
        forall k, is_Some (bucket w !! k) -> JsString.startsWith k prefix = false)
    /\ (status res <> 404 ->
        exists sourceKey source,
          head (list_keys prefix (bucket w)) = Some sourceKey
          /\ JsString.startsWith sourceKey prefix = true
          /\ bucket w !! sourceKey = Some source
          /\ res = json_response 200 success
          /\ bucket w'
             = <[main_photo_key artistId :=
                   mkR2Object (body source) (contentType source)]> (bucket w)).
Proof.
  intros Hp Hjson Hid Hf prefix.
  destruct w as [b fs' c lg ck rd]. cbn [faults] in Hf. subst fs'.
  unfold setMainPhoto, request_json, JSON_parse, R2_list, R2_get, R2_put.
  rewrite Hp, Hjson.
  unfold try_catch, bind, call, ret, lift, update_bucket. rewrite Hid.
  fields.
  pose proof (list_keys_nil prefix b) as Hnil.
  subst prefix. cbv zeta.
  remember (list_keys (photo_prefix artistId (Js.template photoId)) b) as keys eqn:Hkeys.
  symmetry in Hkeys. destruct keys as [|sourceKey rest].
  - eexists _, _. split; [reflexivity|]. cbn [status error_response json_response].
    split; [split; [intros _; by apply Hnil|done]|done].
  - assert (Hin : sourceKey ∈ list_keys (photo_prefix artistId (Js.template photoId)) b)
      by (rewrite Hkeys; left).
    apply list_keys_elem in Hin as [Hpre [source Hsrc]].
    fields. rewrite Hsrc.
    eexists _, _. split; [reflexivity|]. cbn [status json_response bucket].
    split.
    + split; [discriminate|]. intros Hall. apply Hnil in Hall. discriminate.
    + intros _. by exists sourceKey, source.
Qed.

(** C9 on a bucket holding the photo [p1.png]. *)
Lemma setMainPhoto_spec_witness :
  exists res w',
    setMainPhoto "a" (choose "p1") (quiet photos_of_a [false; false; false])
    = (Js.Ok res, w')
    /\ (status res = 404 <->
        forall k, is_Some (photos_of_a !! k) ->
                  JsString.startsWith k (photo_prefix "a" "p1") = false)
    /\ (status res <> 404 ->
        exists sourceKey source,
          head (list_keys (photo_prefix "a" "p1") photos_of_a) = Some sourceKey
          /\ JsString.startsWith sourceKey (photo_prefix "a" "p1") = true
          /\ photos_of_a !! sourceKey = Some source
          /\ res = json_response 200 success
          /\ bucket w'
             = <[main_photo_key "a" :=
                   mkR2Object (body source) (contentType source)]> photos_of_a).
Proof.
  apply (setMainPhoto_spec "a" (choose "p1")
           (JSON.stringify (JSON.Obj [("photoId", JSON.Str "p1")]))
           (JSON.Obj [("photoId", JSON.Str "p1")]) (Some (JSON.Str "p1"))
           (quiet photos_of_a [false; false; false]) []).
  - reflexivity.
  - vm_compute; reflexivity.
  - reflexivity.
  - reflexivity.
Defined.

(** * Further facts *)

(** ** Handlers always answer *)

Lemma yields_ret {A} (P : A -> Prop) a : P a -> yields P (ret a).
Proof. intros H w a' w' [= <- _]. exact H. Qed.

Lemma yields_throw {A} (P : A -> Prop) e : yields P (throw e).
Proof. intros w a w' [=]. Qed.

Lemma yields_bind {A B} (P : B -> Prop) (m : M A) (k : A -> M B) :
  (forall a, yields P (k a)) -> yields P (bind m k).
Proof.
  intros Hk w b w'. unfold bind. destruct (m w) as [[a|e] w1]; [|done].
  apply Hk.
Qed.

Lemma answers_try_catch {A} (P : A -> Prop) (m : M A) (h : Js.Error -> M A) :
  yields P m -> (forall e, answers P (h e)) -> answers P (try_catch m h).
Proof.
  intros Hm Hh w. unfold try_catch. destruct (m w) as [[a|e] w1] eqn:E.
  - exists a, w1. eauto.
  - apply Hh.
Qed.

Lemma answers_log {A} (P : A -> Prop) label e (a : A) :
  P a -> answers P (bind (console_error label e) (fun _ => ret a)).
Proof. intros H w. eexists _, _. split; [reflexivity|done]. Qed.

Lemma json_reply_json st v :
  In st [200; 400; 404; 500] -> json_reply (json_response st v).
Proof. by split. Qed.

Ltac yield_step :=
  first
    [ apply yields_throw
    | apply yields_ret; apply json_reply_json; cbn; tauto
    | apply yields_bind; intro
    | match goal with
      | |- yields _ (match ?x with _ => _ end) => destruct x
      | |- yields _ (let _ := _ in _) => cbv zeta
      end ].

Ltac handler_answers :=
  apply answers_try_catch;
  [ repeat yield_step
  | intro; apply answers_log, json_reply_json; cbn; tauto ].

Lemma handlers_answer handler params request :
  answers json_reply (invoke handler params request).
Proof.
  destruct handler; cbn [invoke];
    [ unfold getArtists | unfold createArtist | unfold getArtist
    | unfold updateArtist | unfold deleteArtist | unfold getArtistPhotos
    | unfold uploadPhoto | unfold deletePhoto | unfold setMainPhoto
    | unfold getFilmography | unfold updateFilmography
    | unfold exportArtistsData | unfold exportFilmographyData ];
    handler_answers.
Qed.

(** X1: whatever the request and whatever fails underneath, the router
    returns a response and never throws: its status is 200, 400, 404 or
    500 and its only header is the JSON content type. *)
Theorem handleApiRequest_answers request :
  answers json_reply (handleApiRequest request).
Proof.
  unfold handleApiRequest. destruct (find_route _ _ _) as [[handler params]|].
  - apply handlers_answer.
  - intros w. eexists _, _. split; [reflexivity|]. apply json_reply_json.
    cbn; tauto.
Qed.

(** ** Reading handlers write nothing *)

Lemma only_read_refl w : only_read w w.
Proof. split; [done|]. exists []. by rewrite app_nil_r. Qed.

Lemma only_read_trans w1 w2 w3 :
  only_read w1 w2 -> only_read w2 w3 -> only_read w1 w3.
Proof.
  intros [Hb1 (l1 & Hc1 & Hr1)] [Hb2 (l2 & Hc2 & Hr2)]. split; [congruence|].
  exists (l1 ++ l2). rewrite Hc2, Hc1, <- app_assoc. split; [done|].
  rewrite forallb_app. by rewrite Hr1, Hr2.
Qed.

Lemma wn_ret {A} (a : A) : writes_nothing (ret a).
Proof. intros w. apply only_read_refl. Qed.

Lemma wn_throw {A} e : writes_nothing (@throw A e).
Proof. intros w. apply only_read_refl. Qed.

Lemma wn_lift {A} (o : Js.Outcome A) : writes_nothing (lift o).
Proof. intros w. apply only_read_refl. Qed.

Lemma wn_bind {A B} (m : M A) (k : A -> M B) :
  writes_nothing m -> (forall a, writes_nothing (k a)) ->
  writes_nothing (bind m k).
Proof.
  intros Hm Hk w. specialize (Hm w). unfold bind.
  destruct (m w) as [[a|e] w1]; cbn [snd] in *; [|done].
  eapply only_read_trans; [exact Hm|apply Hk].
Qed.

Lemma wn_try_catch {A} (m : M A) (h : Js.Error -> M A) :
  writes_nothing m -> (forall e, writes_nothing (h e)) ->
  writes_nothing (try_catch m h).
Proof.
  intros Hm Hh w. specialize (Hm w). unfold try_catch.
  destruct (m w) as [[a|e] w1]; cbn [snd] in *; [done|].
  eapply only_read_trans; [exact Hm|apply Hh].
Qed.

Lemma wn_console_error label e : writes_nothing (console_error label e).
Proof.
  intros w. split; [done|]. exists []. cbn [console_error snd calls].
  by rewrite app_nil_r.
Qed.

Lemma wn_call c : is_read c = true -> writes_nothing (call c).
Proof.
  intros Hc w. unfold call.
  assert (only_read w (mkWorld (bucket w) (tail (faults w)) (calls w ++ [c])
                         (console w) (clock w) (random w))).
  { split; [done|]. exists [c]. split; [done|]. cbn. by rewrite Hc. }
  by destruct (faults w) as [|[] ?].
Qed.

Lemma wn_R2_get key : writes_nothing (R2_get key).
Proof.
  apply wn_bind; [by apply wn_call|]. intros _ w. apply only_read_refl.
Qed.

Lemma wn_R2_list prefix : writes_nothing (R2_list prefix).
Proof.
  apply wn_bind; [by apply wn_call|]. intros _ w. apply only_read_refl.
Qed.

Lemma wn_map_each {A B} (l : list A) (f : A -> M B) :
  (forall x, writes_nothing (f x)) -> writes_nothing (map_each l f).
Proof.
  intros Hf. induction l as [|x l IH]; cbn [map_each]; [apply wn_ret|].
  apply wn_bind; [apply Hf|]. intros y. apply wn_bind; [apply IH|].
  intros ys. apply wn_ret.
Qed.

Ltac wn_step :=
  first
    [ apply wn_ret | apply wn_throw | apply wn_lift | apply wn_console_error
    | apply wn_R2_get | apply wn_R2_list
    | apply wn_bind; [|intro] | apply wn_try_catch; [|intro]
    | apply wn_map_each; intro
    | match goal with
      | |- writes_nothing (match ?x with _ => _ end) => destruct x
      | |- writes_nothing (if ?b then _ else _) => destruct b
      | |- writes_nothing (let _ := _ in _) => cbv zeta
      end
    | progress unfold getR2Object, getMainPhotoUrl, getR2ObjectUrl, parse_or,
        JSON_parse, iterate, as_array, assign, attach_main_photo ].

Lemma wn_find artistId l : writes_nothing (find artistId l).
Proof. induction l as [|a l IH]; cbn [find]; repeat wn_step. exact IH. Qed.

Lemma wn_export_artists l : forall acc, writes_nothing (export_artists l acc).
Proof.
  induction l as [|a l IH]; intros acc; cbn [export_artists]; repeat wn_step.
  apply IH.
Qed.

Lemma wn_export_filmography l :
  forall acc, writes_nothing (export_filmography l acc).
Proof.
  induction l as [|a l IH]; intros acc; cbn [export_filmography];
    repeat wn_step; apply IH.
Qed.

(** The handlers bound to the GET routes. *)
Lemma get_routes method path h params :
  find_route routes method path = Some (h, params) -> method = "GET" ->
  In h [H_getArtists; H_getArtist; H_getArtistPhotos; H_getFilmography;
        H_exportArtistsData; H_exportFilmographyData].
Proof.
  intros H%routes_selects ->. unfold compiled_routes in H. cbn [selects] in H.
  repeat (destruct H as [(Hm & _ & ->)|[_ H]];
          [first [discriminate Hm | cbn; tauto]|]).
  done.
Qed.

(** X2: a GET request never changes an object of the bucket, whatever
    it finds there and whatever fails: the calls it makes are [get] and
    [list] calls only. *)
Theorem get_requests_write_nothing request :
  method request = "GET" -> writes_nothing (handleApiRequest request).
Proof.
  intros Hm. unfold handleApiRequest.
  destruct (find_route _ _ _) as [[h params]|] eqn:E; [|apply wn_ret].
  apply get_routes in E; [|done]. cbn [In] in E.
  destruct E as [<-|[<-|[<-|[<-|[<-|[<-|[]]]]]]]; cbn [invoke].
  - unfold getArtists. repeat wn_step.
  - unfold getArtist. repeat wn_step; apply wn_find.
  - unfold getArtistPhotos. repeat wn_step.
  - unfold getFilmography. repeat wn_step.
  - unfold exportArtistsData. repeat wn_step; apply wn_export_artists.
  - unfold exportFilmographyData. repeat wn_step; apply wn_export_filmography.
Qed.

(** The same for the listing of a bucket holding a collection, a main
    photo and a failing read. *)
Lemma get_requests_write_nothing_witness :
  only_read (quiet with_photo [false; true])
    (snd (handleApiRequest (mkRequest "GET" "/api/artists" (TextBody EmptyString))
            (quiet with_photo [false; true]))).
Proof.
  apply (get_requests_write_nothing
           (mkRequest "GET" "/api/artists" (TextBody EmptyString))).
  reflexivity.
Defined.

(** ** More on the router *)

Lemma take_segment s : forall n,
  0 < n -> n <= Regex.segment_span s -> is_segment (JsString.take n s).
Proof.
  induction s as [|c s IH]; intros n Hn Hle; cbn [Regex.segment_span] in Hle;
    [lia|].
  destruct (Ascii.eqb c "/") eqn:Hc; [lia|].
  destruct n as [|n]; [lia|]. cbn [JsString.take]. split; [done|].
  cbn [Regex.segment_span String.length]. rewrite Hc. f_equal.
  destruct n as [|n]; [by destruct s|]. apply IH; lia.
Qed.

Lemma try_lengths_captures k s : forall n caps,
  n <= Regex.segment_span s ->
  (forall t caps', k t = Some caps' -> Forall is_segment caps') ->
  Regex.try_lengths k n s = Some caps -> Forall is_segment caps.
Proof.
  induction n as [|n IH]; intros caps Hn Hk H; [done|].
  cbn [Regex.try_lengths] in H.
  destruct (k (JsString.substr (S n) s)) as [caps'|] eqn:E.
  - injection H as <-. constructor; [apply (take_segment s (S n)); lia|by eapply Hk].
  - apply IH; [lia|done..].
Qed.

Lemma exec_captures r : forall s caps,
  Regex.exec r s = Some caps -> Forall is_segment caps.
Proof.
  induction r as [|[c|] r IH]; intros s caps H; cbn [Regex.exec] in H.
  - destruct s; by simplify_eq.
  - destruct s as [|c' s]; [done|]. destruct (Ascii.eqb c c'); [|done]. eauto.
  - eapply try_lengths_captures; [|exact IH|exact H]. done.
Qed.

(** X3: what the router dispatches to is never [deletePhoto]; the
    handler gets as many captures as it reads arguments, and each
    capture is a path segment: not empty and without a slash. *)
Theorem dispatched_handler method path h params :
  find_route routes method path = Some (h, params) ->
  h <> H_deletePhoto /\ length params = arity h /\ Forall is_segment params.
Proof.
  intros H.
  assert (Hne : h <> H_deletePhoto)
    by (intros ->; by apply deletePhoto_unreachable in H).
  split; [done|]. apply routes_selects in H.
  unfold compiled_routes in H. cbn [selects] in H.
  repeat (destruct H as [(_ & E & ->)|[_ H]];
          [first [done
                 | split; [by apply exec_length in E|by apply exec_captures in E]]
          |]).
  done.
Qed.

(** The route taken by the update of artist [k7]. *)
Lemma dispatched_handler_witness :
  H_updateArtist <> H_deletePhoto
  /\ length ["k7"] = arity H_updateArtist /\ Forall is_segment ["k7"].
Proof.
  apply (dispatched_handler "PUT" "/api/artists/k7" H_updateArtist ["k7"]).
  reflexivity.
Defined.

(** X4: for an id of one segment, each route of the table with at most
    one placeholder runs the handler bound to it, on that id. *)
Theorem handleApiRequest_routes a payload :
  is_segment a ->
  handleApiRequest (mkRequest "GET" "/api/artists" payload) = getArtists
  /\ handleApiRequest (mkRequest "POST" "/api/artists" payload)
     = createArtist (mkRequest "POST" "/api/artists" payload)
  /\ handleApiRequest (mkRequest "GET" ("/api/artists/" +:+ a) payload)
     = getArtist a
  /\ handleApiRequest (mkRequest "PUT" ("/api/artists/" +:+ a) payload)
     = updateArtist a (mkRequest "PUT" ("/api/artists/" +:+ a) payload)
  /\ handleApiRequest (mkRequest "DELETE" ("/api/artists/" +:+ a) payload)
     = deleteArtist a
  /\ handleApiRequest (mkRequest "GET" ("/api/artists/" +:+ a +:+ "/photos") payload)
     = getArtistPhotos a
  /\ handleApiRequest (mkRequest "POST" ("/api/artists/" +:+ a +:+ "/photos") payload)
     = uploadPhoto a
         (mkRequest "POST" ("/api/artists/" +:+ a +:+ "/photos") payload)
  /\ handleApiRequest
       (mkRequest "PUT" ("/api/artists/" +:+ a +:+ "/main-photo") payload)
     = setMainPhoto a
         (mkRequest "PUT" ("/api/artists/" +:+ a +:+ "/main-photo") payload)
  /\ handleApiRequest
       (mkRequest "GET" ("/api/artists/" +:+ a +:+ "/filmography") payload)
     = getFilmography a
  /\ handleApiRequest
       (mkRequest "PUT" ("/api/artists/" +:+ a +:+ "/filmography") payload)
     = updateFilmography a
         (mkRequest "PUT" ("/api/artists/" +:+ a +:+ "/filmography") payload)
  /\ handleApiRequest (mkRequest "GET" "/api/export/artists" payload)
     = exportArtistsData
  /\ handleApiRequest (mkRequest "GET" "/api/export/filmography" payload)
     = exportFilmographyData.
Proof.
  intros Ha.
  destruct (dispatch_one_segment a Ha) as (H1 & H2 & H3 & H4 & H5 & H6 & H7 & H8).
  unfold handleApiRequest. cbn [method pathname].
  rewrite H1, H2, H3, H4, H5, H6, H7, H8.
  repeat split.
Qed.

Lemma handleApiRequest_routes_witness :
  handleApiRequest (mkRequest "GET" ("/api/artists/" +:+ "k7" +:+ "/photos")
                      (TextBody EmptyString))
  = getArtistPhotos "k7".
Proof.
  apply (handleApiRequest_routes "k7" (TextBody EmptyString)).
  split; [discriminate|reflexivity].
Defined.

(** ** Reading an object *)

(** X5: [getR2Object] never throws: a read that fails is logged and
    answered like the read of an absent object, by [null]. *)
Theorem getR2Object_swallows key w :
  exists w',
    getR2Object key w
    = (Js.Ok (match faults w with
              | true :: _ => None
              | _ => option_map body (bucket w !! key)
              end), w')
    /\ bucket w' = bucket w
    /\ calls w' = calls w ++ [CallGet key]
    /\ console w'
       = match faults w with
         | true :: _ =>
             console w
             ++ [(LogError, "getR2Object error for key " +:+ key +:+ ":",
                  Js.StorageError)]
         | _ => console w
         end.
Proof.
  destruct w as [b fs c lg ck rd].
  unfold getR2Object, R2_get, try_catch, bind, call, ret, console_error.
  fields. destruct fs as [|[] fs]; fields;
    try destruct (b !! key); eexists; split_and!; reflexivity.
Qed.

(** ** One artist *)

Lemma find_absent artistId artists w :
  absent artistId artists -> find artistId artists w = (Js.Ok None, w).
Proof.
  induction 1 as [|a l Ha _ IH]; [reflexivity|].
  cbn [find]. unfold bind, lift. by rewrite Ha, IH.
Qed.

Lemma find_first artistId pre m post w :
  absent artistId pre ->
  JSON.lookup_prop "id" m = Some (JSON.Str artistId) ->
  find artistId (pre ++ JSON.Obj m :: post) w = (Js.Ok (Some (JSON.Obj m)), w).
Proof.
  intros Hpre Hid. induction Hpre as [|a l Ha _ IH]; cbn [app find].
  - unfold bind, lift, Js.id_is. cbn [Js.get_prop]. rewrite Hid.
    cbn [Js.strict_eq_string]. by rewrite String.eqb_refl.
  - unfold bind, lift. by rewrite Ha, IH.
Qed.

(** X6: asking for an artist whose id no record of the collection
    carries answers 404 [Artist not found], after the one read of the
    collection, whether that read succeeds or throws. *)
Theorem getArtist_unknown_id artistId artists w :
  stored_artists w artists ->
  absent artistId artists ->
  exists w',
    getArtist artistId w = (Js.Ok (error_response 404 "Artist not found"), w')
    /\ bucket w' = bucket w
    /\ calls w' = calls w ++ [CallGet "data/artists.json"].
Proof.
  intros Hst Habs. destruct w as [b fs c lg ck rd].
  unfold getArtist, getR2Object, R2_get, try_catch, bind, call, ret, console_error.
  fields. destruct fs as [|[] fs]; fields.
  - rewrite (parse_collection b artists) by done. cbn [as_array ret].
    rewrite find_absent by done. eexists; split_and!; reflexivity.
  - cbn [parse_or as_array find ret]. eexists; split_and!; reflexivity.
  - rewrite (parse_collection b artists) by done. cbn [as_array ret].
    rewrite find_absent by done. eexists; split_and!; reflexivity.
Qed.

Lemma getArtist_unknown_id_witness :
  exists w',
    getArtist "zz" (quiet one_artist [])
    = (Js.Ok (error_response 404 "Artist not found"), w')
    /\ bucket w' = bucket (quiet one_artist [])
    /\ calls w' = calls (quiet one_artist []) ++ [CallGet "data/artists.json"].
Proof.
  apply (getArtist_unknown_id "zz" [artist_A]).
  - vm_compute; reflexivity.
  - repeat constructor.
Defined.

Lemma lookup_set_prop_eq k v m : JSON.lookup_prop k (JSON.set_prop k v m) = Some v.
Proof.
  induction m as [|[k' v'] m IH]; cbn [JSON.set_prop JSON.lookup_prop].
  - by rewrite String.eqb_refl.
  - destruct (String.eqb k k') eqn:E; cbn [JSON.lookup_prop]; rewrite ?E;
      [by rewrite String.eqb_refl|done].
Qed.

Lemma lookup_set_prop_ne k k' v m :
  k <> k' -> JSON.lookup_prop k (JSON.set_prop k' v m) = JSON.lookup_prop k m.
Proof.
  intros Hne. induction m as [|[k'' v''] m IH]; cbn [JSON.set_prop JSON.lookup_prop].
  - by apply String.eqb_neq in Hne as ->.
  - destruct (String.eqb_spec k' k'') as [<-|Hne']; cbn [JSON.lookup_prop].
    + by apply String.eqb_neq in Hne as ->.
    + by rewrite IH.
Qed.

(** X7: asking for a stored artist answers 200 with the first record of
    that id, to which the filmography document is attached when there is
    one, and the URL of the main photo when there is one (the three reads
    succeeding); nothing is written. *)
Theorem getArtist_found artistId pre m post film w fs :
  stored_artists w (pre ++ JSON.Obj m :: post) ->
  absent artistId pre ->
  JSON.lookup_prop "id" m = Some (JSON.Str artistId) ->
  document (bucket w) (filmography_key artistId) = Js.Ok film ->
  faults w = false :: false :: false :: fs ->
  exists w',
    getArtist artistId w
    = (Js.Ok (json_response 200 (artist_view (bucket w) m film)), w')
    /\ bucket w' = bucket w.
Proof.
  intros Hst Hpre Hid Hdoc Hf. destruct w as [b fs' c lg ck rd].
  cbn [faults] in Hf. subst fs'. cbn [bucket] in Hdoc.
  unfold getArtist, getR2Object, getMainPhotoUrl, getR2ObjectUrl, R2_get,
    try_catch, bind, call, ret, console_error.
  fields. rewrite (parse_collection b _) by exact (fun _ _ _ _ _ => Hst).
  cbn [as_array ret]. rewrite find_first by done. fields.
  unfold artist_view, with_main_photo, document in *.
  assert (Hkey : forall v,
            JSON.lookup_prop "id" (JSON.set_prop "filmography" v m)
            = Some (JSON.Str artistId))
    by (intros v; by rewrite lookup_set_prop_ne).
  destruct (b !! filmography_key artistId) as [o|]; cbn [body].
  - destruct (JsString.truthy (body o)).
    + unfold JSON_parse. destruct (JSON.parse (body o)) as [f|]; [|done].
      injection Hdoc as <-. cbn [assign ret]. fields. rewrite Hkey.
      cbn [Js.template Js.to_string].
      destruct (b !! _); eexists; split; reflexivity.
    + injection Hdoc as <-. fields. rewrite Hid. cbn [Js.template Js.to_string].
      destruct (b !! _); eexists; split; reflexivity.
  - injection Hdoc as <-. fields. rewrite Hid. cbn [Js.template Js.to_string].
    destruct (b !! _); eexists; split; reflexivity.
Qed.

Lemma getArtist_found_witness :
  exists w',
    getArtist "a" (quiet with_photo [false; false; false])
    = (Js.Ok (json_response 200 (artist_view with_photo
                                   [("id", JSON.Str "a"); ("name", JSON.Str "A")]
                                   None)), w')
    /\ bucket w' = with_photo.
Proof.
  apply (getArtist_found "a" [] _ [] None (quiet with_photo [false; false; false]) []).
  - vm_compute; reflexivity.
  - constructor.
  - reflexivity.
  - vm_compute; reflexivity.
  - reflexivity.
Defined.

(** ** A read that fails *)

(** X8: when the read of the collection, or of the filmography
    document, throws, the handlers answer as for an absent object,
    whatever the bucket holds: the listing is empty, an artist is not
    found, for reading and for updating, and the filmography is the empty
    default; nothing is written. *)
Theorem failed_read_reads_as_absent artistId request text updateData w fs :
  payload request = TextBody text ->
  JSON.parse text = Some updateData ->
  faults w = true :: fs ->
  (exists w', getArtists w = (Js.Ok (json_response 200 (JSON.Arr [])), w')
              /\ bucket w' = bucket w)
  /\ (exists w', getArtist artistId w
                 = (Js.Ok (error_response 404 "Artist not found"), w')
                 /\ bucket w' = bucket w)
  /\ (exists w', updateArtist artistId request w
                 = (Js.Ok (error_response 404 "Artist not found"), w')
                 /\ bucket w' = bucket w)
  /\ (exists w', getFilmography artistId w
                 = (Js.Ok (json_response 200 empty_filmography), w')
                 /\ bucket w' = bucket w).
Proof.
  intros Hp Hjson Hf. destruct w as [b fs' c lg ck rd]. cbn [faults] in Hf.
  subst fs'.
  unfold getArtists, getArtist, updateArtist, getFilmography, request_json,
    JSON_parse.
  rewrite Hp, Hjson.
  unfold getR2Object, R2_get, try_catch, bind, call, ret, console_error.
  fields. cbn [parse_or iterate as_array map_each find findIndex ret].
  split_and!; eexists; split; reflexivity.
Qed.

Lemma failed_read_reads_as_absent_witness :
  (exists w', getArtists (quiet one_artist [true])
              = (Js.Ok (json_response 200 (JSON.Arr [])), w')
              /\ bucket w' = bucket (quiet one_artist [true]))
  /\ (exists w', getArtist "a" (quiet one_artist [true])
                 = (Js.Ok (error_response 404 "Artist not found"), w')
                 /\ bucket w' = bucket (quiet one_artist [true]))
  /\ (exists w', updateArtist "a" (named "B") (quiet one_artist [true])
                 = (Js.Ok (error_response 404 "Artist not found"), w')
                 /\ bucket w' = bucket (quiet one_artist [true]))
  /\ (exists w', getFilmography "a" (quiet one_artist [true])
                 = (Js.Ok (json_response 200 empty_filmography), w')
                 /\ bucket w' = bucket (quiet one_artist [true])).
Proof.
  apply (failed_read_reads_as_absent "a" (named "B")
           (JSON.stringify (JSON.Obj [("name", JSON.Str "B")]))
           (JSON.Obj [("name", JSON.Str "B")]) (quiet one_artist [true]) []).
  - reflexivity.
  - vm_compute; reflexivity.
  - reflexivity.
Defined.

(** X9: when the read of the collection throws and the writes that
    follow succeed, deleting an artist stores the empty list in place of
    the collection, and creating an artist stores the new record alone,
    whatever records the collection held; both answer with success. *)
Theorem failed_read_overwrites_collection
    artistId request text artistData name w fs :
  payload request = TextBody text ->
  JSON.parse text = Some artistData ->
  Js.get_prop artistData "name" = Js.Ok (Some name) ->
  faults w = true :: false :: false :: fs ->
  (exists w',
     deleteArtist artistId w = (Js.Ok (json_response 200 success), w')
     /\ bucket w' !! "data/artists.json" = Some (collection_document []))
  /\ (exists w',
        createArtist request w
        = (Js.Ok (json_response 200
                    (JSON.Obj [("success", JSON.Bool true);
                               ("artistId", JSON.Str (next_id w))])), w')
        /\ bucket w' !! "data/artists.json"
           = Some (collection_document [new_record w name])).
Proof.
  intros Hp Hjson Hname Hf. destruct w as [b fs' c lg ck rd].
  cbn [faults] in Hf. subst fs'. split.
  - unfold deleteArtist. fold (photo_cleanup artistId).
    unfold getR2Object, putR2Object, deleteR2Object, R2_get, R2_put, R2_delete.
    unfold try_catch at 1. unfold try_catch at 1.
    unfold bind, call, ret, update_bucket, console_error.
    fields. cbn [parse_or as_array filter_out ret]. fields.
    match goal with |- context [photo_cleanup artistId ?w0] =>
      destruct (photo_cleanup_spec artistId w0) as (w' & -> & Hb & _) end.
    cbn [bucket] in Hb. exists w'. split; [reflexivity|].
    rewrite Hb, lookup_delete_ne, lookup_insert_eq by done. reflexivity.
  - unfold createArtist, getArtists, request_json, JSON_parse, generateId,
      toISOString, Date_new, Math_random_toString36.
    rewrite Hp, Hjson.
    unfold getR2Object, R2_get, try_catch, bind, ret, lift, response_json,
      JSON_parse, putR2Object, R2_put, call, update_bucket, console_error.
    rewrite Hname. fields. cbn [parse_or iterate map_each ret]. fields.
    cbn [content json_response]. rewrite parse_stringify by done.
    cbn [as_array app]. fields.
    assert (Hnew :
      Js.literal [("id", Some (JSON.Str (toString36 (epoch_ms (hd epoch ck))
                                         +:+ JsString.substr 2 (hd "0" rd))));
                  ("name", Some name);
                  ("createdAt", Some (JSON.Str (iso (hd epoch (tail ck)))));
                  ("updatedAt", Some (JSON.Str (iso (hd epoch (tail (tail ck))))))]
      = new_record (mkWorld b (true :: false :: false :: fs) c lg ck rd) name).
    { unfold new_record, next_id. cbn [clock random].
      destruct ck as [|? [|? [|? ?]]]; reflexivity. }
    rewrite Hnew.
    destruct (Js.get_prop artistData "filmography") as [[f|]|e] eqn:Hfilm.
    + destruct (Js.truthy (Some f)); fields;
        eexists; (split; [reflexivity|]); cbn [bucket].
      * rewrite lookup_insert_ne, lookup_insert_eq by discriminate. reflexivity.
      * rewrite lookup_insert_eq. reflexivity.
    + eexists. split; [reflexivity|]. cbn [bucket].
      rewrite lookup_insert_eq. reflexivity.
    + destruct artistData; discriminate.
Qed.

Lemma failed_read_overwrites_collection_witness :
  (exists w',
     deleteArtist "zz" (quiet one_artist [true; false; false])
     = (Js.Ok (json_response 200 success), w')
     /\ bucket w' !! "data/artists.json" = Some (collection_document []))
  /\ (exists w',
        createArtist (named "Kim") (quiet one_artist [true; false; false])
        = (Js.Ok (json_response 200
                    (JSON.Obj [("success", JSON.Bool true);
                               ("artistId",
                                JSON.Str (next_id (quiet one_artist
                                                     [true; false; false])))])),
           w')
        /\ bucket w' !! "data/artists.json"
           = Some (collection_document
                     [new_record (quiet one_artist [true; false; false])
                        (JSON.Str "Kim")])).
Proof.
  apply (failed_read_overwrites_collection "zz" (named "Kim")
           (JSON.stringify (JSON.Obj [("name", JSON.Str "Kim")]))
           (JSON.Obj [("name", JSON.Str "Kim")]) (JSON.Str "Kim") _ []).
  - reflexivity.
  - vm_compute; reflexivity.
  - reflexivity.
  - reflexivity.
Defined.

(** ** A body that is not JSON *)



(** ** Updating a stored artist *)






Lemma lookup_of_members_from k ps : forall m,
  JSON.lookup_prop k (fold_left (fun m p => JSON.set_prop (fst p) (snd p) m) ps m)
  = match JSON.lookup_prop k (rev ps) with
    | Some v => Some v
    | None => JSON.lookup_prop k m
    end.
Proof.
  induction ps as [|[k' v'] ps IH]; intros m; cbn [fold_left rev fst snd].
  - reflexivity.
  - rewrite IH. clear IH.
    assert (Happ : forall l1 l2,
              JSON.lookup_prop k (l1 ++ l2)
              = match JSON.lookup_prop k l1 with
                | Some v => Some v
                | None => JSON.lookup_prop k l2
                end).
    { induction l1 as [|[k1 v1] l1 IH1]; intros l2; cbn [app JSON.lookup_prop];
        [done|]. by destruct (String.eqb k k1). }
    rewrite Happ. destruct (JSON.lookup_prop k (rev ps)); [done|].
    cbn [JSON.lookup_prop]. destruct (String.eqb_spec k k') as [->|Hne].
    + apply lookup_set_prop_eq.
    + by apply lookup_set_prop_ne.
Qed.

Lemma lookup_app k l1 l2 :
  JSON.lookup_prop k (l1 ++ l2)
  = match JSON.lookup_prop k l1 with
    | Some v => Some v
    | None => JSON.lookup_prop k l2
    end.
Proof.
  induction l1 as [|[k1 v1] l1 IH]; cbn [app JSON.lookup_prop]; [done|].
  by destruct (String.eqb k k1).
Qed.

Lemma lookup_None_notin k m :
  JSON.lookup_prop k m = None <-> ~ In k (map fst m).
Proof.
  induction m as [|[k1 v1] m IH]; cbn [JSON.lookup_prop map fst In]; [tauto|].
  destruct (String.eqb_spec k k1) as [->|Hne]; [split; [done|tauto]|].
  rewrite IH. split; [intros H [?|?]; [congruence|tauto]|tauto].
Qed.

Lemma lookup_rev k m :
  NoDup (map fst m) -> JSON.lookup_prop k (rev m) = JSON.lookup_prop k m.
Proof.
  induction m as [|[k1 v1] m IH]; [done|].
  cbn [map fst rev JSON.lookup_prop]. intros [Hnotin Hnd]%NoDup_cons.
  rewrite lookup_app, IH by done. cbn [JSON.lookup_prop].
  destruct (String.eqb_spec k k1) as [->|Hne]; [|by destruct (JSON.lookup_prop k m)].
  assert (JSON.lookup_prop k1 m = None) as ->; [|done].
  apply lookup_None_notin. by rewrite <- list_elem_of_In.
Qed.

(** X13: in the record an update writes, [updatedAt] is the time of the
    update, also when the body supplies one; every other field has the
    value the body gives it, and the stored value when the body has no
    such field.  So a body with an [id] changes the id of the record. *)
Theorem updated_record_fields m u stamp k :
  JSON.wf (JSON.Obj m) -> JSON.wf (JSON.Obj u) ->
  match updated_record m (JSON.Obj u) stamp with
  | JSON.Obj merged =>
      JSON.lookup_prop k merged
      = if String.eqb k "updatedAt" then Some (JSON.Str stamp)
        else match JSON.lookup_prop k u with
             | Some v => Some v
             | None => JSON.lookup_prop k m
             end
  | _ => False
  end.
Proof.
  intros [Hm _]%wf_Obj [Hu _]%wf_Obj. unfold updated_record, JSON.of_members.
  cbn [Js.spread]. rewrite lookup_of_members_from. cbn [JSON.lookup_prop].
  rewrite !rev_app_distr. cbn [rev app JSON.lookup_prop].
  destruct (String.eqb k "updatedAt"); [done|].
  rewrite lookup_app, !lookup_rev by done.
  by destruct (JSON.lookup_prop k u), (JSON.lookup_prop k m).
Qed.

Lemma updated_record_fields_witness :
  match updated_record [("id", JSON.Str "a"); ("name", JSON.Str "A")]
          (JSON.Obj [("id", JSON.Str "b")]) "T" with
  | JSON.Obj merged =>
      JSON.lookup_prop "id" merged
      = if String.eqb "id" "updatedAt" then Some (JSON.Str "T")
        else match JSON.lookup_prop "id" [("id", JSON.Str "b")] with
             | Some v => Some v
             | None => JSON.lookup_prop "id" [("id", JSON.Str "a"); ("name", JSON.Str "A")]
             end
  | _ => False
  end.
Proof.
  apply (updated_record_fields [("id", JSON.Str "a"); ("name", JSON.Str "A")]
           [("id", JSON.Str "b")] "T" "id").
  - split; [apply (bool_decide_unpack _); vm_compute; reflexivity|simpl; tauto].
  - split; [apply (bool_decide_unpack _); vm_compute; reflexivity|simpl; tauto].
Defined.

(** ** After a write *)

Lemma wf_lookup k m v :
  JSON.wf (JSON.Obj m) -> JSON.lookup_prop k m = Some v -> JSON.wf v.
Proof.
  intros [_ Hm]%wf_Obj. induction Hm as [|[k' v'] m Hv _ IH];
    cbn [JSON.lookup_prop]; [done|].
  destruct (String.eqb k k'); [by intros [= <-]|done].
Qed.

Lemma wf_get_prop a k v :
  JSON.wf a -> Js.get_prop a k = Js.Ok (Some v) -> JSON.wf v.
Proof. destruct a; try done. intros Hwf [= H]. by eapply wf_lookup. Qed.

Lemma filmography_key_ne artistId : filmography_key artistId <> "data/artists.json".
Proof. discriminate. Qed.

Lemma store_filmography_collection artistId film b :
  store_filmography artistId film b !! "data/artists.json"
  = b !! "data/artists.json".
Proof.
  unfold store_filmography. destruct film as [f|]; [|done].
  destruct (Js.truthy _); [|done].
  apply lookup_insert_ne, filmography_key_ne.
Qed.

(** What a successful [createArtist] leaves behind. *)
Lemma createArtist_run request text artistData name film artists w :
  payload request = TextBody text ->
  JSON.parse text = Some artistData ->
  Js.get_prop artistData "name" = Js.Ok (Some name) ->
  Js.get_prop artistData "filmography" = Js.Ok film ->
  stored_artists w artists ->
  forallb is_object artists = true ->
  faults w = [] ->
  exists w',
    createArtist request w
    = (Js.Ok (json_response 200
                (JSON.Obj [("success", JSON.Bool true);
                           ("artistId", JSON.Str (next_id w))])), w')
    /\ bucket w' = created w name artists film
    /\ faults w' = [].
Proof.
  intros Hp Hjson Hname Hfilm Hst Hobj Hf.
  pose proof (stored_artists_wf _ _ Hst) as Hwf.
  destruct w as [b fs c lg ck rd]. cbn [faults] in Hf. subst fs.
  unfold createArtist, request_json, JSON_parse, generateId, toISOString,
    Date_new, Math_random_toString36.
  rewrite Hp, Hjson.
  unfold try_catch, bind, ret, lift, response_json, JSON_parse, putR2Object, R2_put,
    call, update_bucket.
  rewrite Hname, Hfilm.
  fields.
  match goal with |- context [getArtists ?w0] =>
    destruct (getArtists_spec artists w0 Hst Hobj eq_refl)
      as (w1 & -> & Hb1 & Hf1 & Hc1 & Hk1 & Hr1) end.
  destruct w1 as [b1 fs1 c1 lg1 ck1 rd1].
  cbn [bucket faults console clock random] in *. subst.
  cbn [content json_response].
  rewrite parse_stringify; cycle 1.
  { apply wf_Arr, Forall_forall. intros x (a & -> & Ha)%list_elem_of_fmap.
    apply with_main_photo_wf. apply wf_Arr in Hwf.
    by eapply Forall_forall in Hwf. }
  cbn [as_array faults bucket calls console clock random tail].
  assert (Hnew :
    Js.literal [("id", Some (JSON.Str (toString36 (epoch_ms (hd epoch ck))
                                       +:+ JsString.substr 2 (hd "0" rd))));
                ("name", Some name);
                ("createdAt", Some (JSON.Str (iso (hd epoch (tail ck)))));
                ("updatedAt", Some (JSON.Str (iso (hd epoch (tail (tail ck))))))]
    = new_record (mkWorld b [] c lg ck rd) name).
  { unfold new_record, next_id. cbn [clock random].
    destruct ck as [|? [|? [|? ?]]]; reflexivity. }
  rewrite Hnew. unfold created, store_filmography, json_document, next_id.
  cbn [bucket clock random].
  destruct film as [f|]; [destruct (Js.truthy (Some f))|]; fields;
    eexists; split_and!; reflexivity.
Qed.

Lemma new_record_wf w name : JSON.wf name -> JSON.wf (new_record w name).
Proof.
  intros Hn. apply wf_Obj. split.
  - apply (bool_decide_unpack _). vm_compute. reflexivity.
  - repeat constructor; done.
Qed.

Lemma with_main_photo_object b a : is_object (with_main_photo b a) = is_object a.
Proof. destruct a; try done. unfold with_main_photo. by case_match. Qed.

Lemma with_main_photo_objects b l :
  forallb is_object (map (with_main_photo b) l) = forallb is_object l.
Proof.
  induction l as [|a l IH]; [done|].
  cbn [map forallb]. by rewrite with_main_photo_object, IH.
Qed.

Lemma with_main_photo_get b a k :
  k <> "mainPhoto" -> is_object a = true ->
  Js.get_prop (with_main_photo b a) k = Js.get_prop a k.
Proof.
  intros Hk Ha. destruct a as [| | | | |m]; try done. unfold with_main_photo.
  case_match; [|done]. cbn [Js.get_prop]. by rewrite lookup_set_prop_ne.
Qed.

(** X14: after a successful creation, listing the artists answers with
    one record more than were stored, the last of which carries the id
    the creation answered with and the name of the request. *)
Theorem createArtist_then_getArtists request text artistData name artists w :
  payload request = TextBody text ->
  JSON.parse text = Some artistData ->
  Js.get_prop artistData "name" = Js.Ok (Some name) ->
  stored_artists w artists ->
  forallb is_object artists = true ->
  faults w = [] ->
  exists w1 w2 listed record,
    createArtist request w
    = (Js.Ok (json_response 200
                (JSON.Obj [("success", JSON.Bool true);
                           ("artistId", JSON.Str (next_id w))])), w1)
    /\ getArtists w1 = (Js.Ok (json_response 200 (JSON.Arr listed)), w2)
    /\ length listed = S (length artists)
    /\ last listed = Some record
    /\ Js.get_prop record "id" = Js.Ok (Some (JSON.Str (next_id w)))
    /\ Js.get_prop record "name" = Js.Ok (Some name).
Proof.
  intros Hp Hjson Hname Hst Hobj Hf.
  assert (Hdata : JSON.wf artistData).
  { unfold JSON.parse in *. by eapply parse_wf. }
  assert (exists film, Js.get_prop artistData "filmography" = Js.Ok film)
    as [film Hfilm].
  { destruct artistData; try discriminate Hname; by eexists. }
  destruct (createArtist_run _ _ _ _ _ _ _ Hp Hjson Hname Hfilm Hst Hobj Hf)
    as (w1 & Hrun & Hb1 & Hf1).
  set (stored := map (with_main_photo (bucket w)) artists ++ [new_record w name]).
  assert (Hst1 : stored_artists w1 stored).
  { apply stored_artists_document.
    - apply wf_Arr, Forall_app. split.
      + apply Forall_forall. intros x (a & -> & Ha)%list_elem_of_fmap.
        apply with_main_photo_wf.
        pose proof (stored_artists_wf _ _ Hst) as Hwf. apply wf_Arr in Hwf.
        by eapply Forall_forall in Hwf.
      + constructor; [|constructor]. apply new_record_wf. by eapply wf_get_prop.
    - rewrite Hb1. unfold created. rewrite store_filmography_collection.
      apply lookup_insert_eq. }
  assert (Hobj1 : forallb is_object stored = true).
  { unfold stored. rewrite forallb_app, with_main_photo_objects, Hobj. reflexivity. }
  destruct (getArtists_spec stored w1 Hst1 Hobj1 Hf1) as (w2 & Hlist & _).
  exists w1, w2, (map (with_main_photo (bucket w1)) stored),
    (with_main_photo (bucket w1) (new_record w name)).
  split_and!; [done|done| | | |].
  - unfold stored. by rewrite !length_map, length_app, length_map, Nat.add_1_r.
  - unfold stored. rewrite map_app. cbn [map]. apply last_snoc.
  - by rewrite with_main_photo_get.
  - by rewrite with_main_photo_get.
Qed.

Lemma createArtist_then_getArtists_witness :
  exists w1 w2 listed record,
    createArtist (named "Kim") (quiet with_photo [])
    = (Js.Ok (json_response 200
                (JSON.Obj [("success", JSON.Bool true);
                           ("artistId", JSON.Str (next_id (quiet with_photo [])))])),
       w1)
    /\ getArtists w1 = (Js.Ok (json_response 200 (JSON.Arr listed)), w2)
    /\ length listed = S (length [artist_A])
    /\ last listed = Some record
    /\ Js.get_prop record "id"
       = Js.Ok (Some (JSON.Str (next_id (quiet with_photo []))))
    /\ Js.get_prop record "name" = Js.Ok (Some (JSON.Str "Kim")).
Proof.
  apply (createArtist_then_getArtists (named "Kim")
           (JSON.stringify (JSON.Obj [("name", JSON.Str "Kim")]))
           (JSON.Obj [("name", JSON.Str "Kim")]) (JSON.Str "Kim") [artist_A]).
  - reflexivity.
  - vm_compute; reflexivity.
  - reflexivity.
  - vm_compute; reflexivity.
  - reflexivity.
  - reflexivity.
Defined.



Lemma without_wf artistId artists :
  JSON.wf (JSON.Arr artists) -> JSON.wf (JSON.Arr (without artistId artists)).
Proof.
  rewrite !wf_Arr. unfold without. intros H.
  induction H as [|a l Ha _ IH]; cbn [List.filter]; [done|].
  destruct (negb _); [by constructor|done].
Qed.

Lemma without_is_absent artistId artists :
  Forall (fun a => a <> JSON.Null) artists ->
  absent artistId (without artistId artists).
Proof.
  unfold absent, without.
  induction 1 as [|a l Ha _ IH]; cbn [List.filter]; [done|].
  destruct (negb (has_id artistId a)) eqn:E; [|done].
  constructor; [|done]. unfold has_id in E.
  destruct a; try done; cbn in *; by destruct (Js.strict_eq_string _ _).
Qed.

(** X16: after a successful deletion, asking for the deleted id answers
    404 [Artist not found], whether or not the id was stored before and
    whether the read made for the answer succeeds or throws. *)
Theorem deleteArtist_then_getArtist artistId artists w fs :
  stored_artists w artists ->
  Forall (fun a => a <> JSON.Null) artists ->
  faults w = false :: false :: false :: fs ->
  exists w1 w2,
    deleteArtist artistId w = (Js.Ok (json_response 200 success), w1)
    /\ getArtist artistId w1
       = (Js.Ok (error_response 404 "Artist not found"), w2).
Proof.
  intros Hst Hnn Hf.
  destruct (deleteArtist_spec artistId artists w fs Hst Hnn Hf)
    as (w1 & Hdel & Hb1 & _).
  assert (Hst1 : stored_artists w1 (without artistId artists)).
  { apply stored_artists_document; [|done].
    apply without_wf. by eapply stored_artists_wf. }
  pose proof (without_is_absent artistId artists Hnn) as Habs.
  exists w1. destruct w1 as [b1 fs1 c1 lg1 ck1 rd1].
  unfold getArtist, getR2Object, R2_get, try_catch, bind, call, ret, console_error.
  fields. destruct fs1 as [|[] fs1]; fields.
  - rewrite (parse_collection b1 _) by exact (fun _ _ _ _ _ => Hst1).
    cbn [as_array ret]. rewrite find_absent by done. by eexists.
  - cbn [parse_or as_array find ret]. by eexists.
  - rewrite (parse_collection b1 _) by exact (fun _ _ _ _ _ => Hst1).
    cbn [as_array ret]. rewrite find_absent by done. by eexists.
Qed.

Lemma deleteArtist_then_getArtist_witness :
  exists w1 w2,
    deleteArtist "a" (quiet one_artist [false; false; false])
    = (Js.Ok (json_response 200 success), w1)
    /\ getArtist "a" w1 = (Js.Ok (error_response 404 "Artist not found"), w2).
Proof.
  apply (deleteArtist_then_getArtist "a" [artist_A] _ []).
  - vm_compute; reflexivity.
  - repeat constructor; discriminate.
  - reflexivity.
Defined.

(** ** The main photo *)

(** X17: [getMainPhotoUrl] never throws and never writes: after one read
    of [artists/{artistId}/main.jpg] it answers the URL of that key when
    the object is stored, and [null] when it is not or when the read
    throws. *)
Theorem getMainPhotoUrl_swallows artistId w :
  exists w',
    getMainPhotoUrl artistId w
    = (Js.Ok (match faults w with
              | true :: _ => None
              | _ => main_photo_url (bucket w) artistId
              end), w')
    /\ bucket w' = bucket w
    /\ calls w' = calls w ++ [CallGet (main_photo_key (Js.template artistId))].
Proof.
  destruct w as [b fs c lg ck rd].
  unfold getMainPhotoUrl, getR2ObjectUrl, R2_get, try_catch, bind, call, ret,
    console_error, main_photo_url, main_photo_key.
  fields. destruct fs as [|[] fs]; fields;
    try destruct (b !! _); eexists; split_and!; reflexivity.
Qed.

Lemma attach_main_photo_calls a w :
  is_object a = true -> faults w = [] ->
  exists w',
    attach_main_photo a w = (Js.Ok (with_main_photo (bucket w) a), w')
    /\ bucket w' = bucket w /\ faults w' = []
    /\ calls w' = calls w ++ [CallGet (main_photo_key (Js.template (record_id a)))].
Proof.
  intros Ha Hf. destruct a as [| | | | |m]; try discriminate Ha.
  destruct w as [b fs c lg ck rd]. cbn [faults] in Hf. subst fs.
  unfold attach_main_photo, getMainPhotoUrl, getR2ObjectUrl, R2_get, assign,
    try_catch, bind, call, ret, lift, main_photo_key.
  cbn [Js.get_prop record_id with_main_photo]. fields.
  destruct (b !! _); eexists; split_and!; reflexivity.
Qed.

Lemma map_each_attach_calls artists : forall w,
  forallb is_object artists = true -> faults w = [] ->
  exists w',
    map_each artists attach_main_photo w
    = (Js.Ok (map (with_main_photo (bucket w)) artists), w')
    /\ bucket w' = bucket w /\ faults w' = []
    /\ calls w'
       = calls w
         ++ map (fun a => CallGet (main_photo_key (Js.template (record_id a))))
              artists.
Proof.
  induction artists as [|a l IH]; intros w Hobj Hf.
  - exists w. cbn [map]. by rewrite app_nil_r.
  - cbn [forallb] in Hobj. apply andb_true_iff in Hobj as [Ha Hl].
    destruct (attach_main_photo_calls a w Ha Hf) as (w1 & Ea & Hb1 & Hf1 & Hc1).
    destruct (IH w1 Hl Hf1) as (w2 & El & Hb2 & Hf2 & Hc2).
    exists w2. cbn [map_each map]. unfold bind, ret. rewrite Ea, El, Hb1.
    split_and!; [done|congruence|done|].
    rewrite Hc2, Hc1, <- app_assoc. reflexivity.
Qed.

(** X18: listing the artists reads the collection once and then looks
    up one main photo per record, in the order of the records; it answers
    with the records, each with the URL of its main photo when one is
    stored, and writes nothing. *)
Theorem getArtists_one_lookup_per_artist artists w :
  stored_artists w artists ->
  forallb is_object artists = true ->
  faults w = [] ->
  exists w',
    getArtists w
    = (Js.Ok (json_response 200
                (JSON.Arr (map (with_main_photo (bucket w)) artists))), w')
    /\ bucket w' = bucket w
    /\ calls w'
       = calls w
         ++ CallGet "data/artists.json"
            :: map (fun a => CallGet (main_photo_key (Js.template (record_id a))))
                 artists.
Proof.
  intros Hst Hobj Hf. destruct w as [b fs c lg ck rd]. cbn [faults] in Hf. subst fs.
  unfold getArtists, getR2Object, R2_get.
  unfold try_catch, bind, call, ret.
  fields.
  rewrite (parse_collection b artists) by exact (fun _ _ _ _ _ => Hst).
  cbn [iterate ret].
  match goal with |- context [map_each artists attach_main_photo ?w0] =>
    destruct (map_each_attach_calls artists w0 Hobj eq_refl)
      as (w' & -> & Hb & _ & Hc) end.
  cbn [bucket calls] in *. exists w'. split_and!; [done|done|].
  by rewrite Hc, <- app_assoc.
Qed.

Lemma getArtists_one_lookup_per_artist_witness :
  exists w',
    getArtists (quiet with_photo [])
    = (Js.Ok (json_response 200
                (JSON.Arr (map (with_main_photo (bucket (quiet with_photo [])))
                             [artist_A]))), w')
    /\ bucket w' = bucket (quiet with_photo [])
    /\ calls w'
       = calls (quiet with_photo [])
         ++ CallGet "data/artists.json"
            :: map (fun a => CallGet (main_photo_key (Js.template (record_id a))))
                 [artist_A].
Proof.
  apply (getArtists_one_lookup_per_artist [artist_A]).
  - vm_compute; reflexivity.
  - reflexivity.
  - reflexivity.
Defined.

(** X19: once [setMainPhoto] has succeeded for an artist, the URL of the
    main photo of that artist is [.../artists/{artistId}/main.jpg],
    whatever the extension of the photo chosen. *)
Theorem setMainPhoto_then_getMainPhotoUrl
    artistId request text data photoId sourceKey w fs :
  payload request = TextBody text ->
  JSON.parse text = Some data ->
  Js.get_prop data "photoId" = Js.Ok photoId ->
  head (list_keys (photo_prefix artistId (Js.template photoId)) (bucket w))
  = Some sourceKey ->
  faults w = false :: false :: false :: false :: fs ->
  exists w1 w2,
    setMainPhoto artistId request w = (Js.Ok (json_response 200 success), w1)
    /\ getMainPhotoUrl (Some (JSON.Str artistId)) w1
       = (Js.Ok (Some ("https://your-r2-domain.com/artists/" +:+ artistId
                       +:+ "/main.jpg")), w2).
Proof.
  intros Hp Hjson Hid Hhead Hf.
  destruct w as [b fs' c lg ck rd]. cbn [faults] in Hf. subst fs'.
  cbn [bucket] in Hhead.
  unfold setMainPhoto, request_json, JSON_parse, R2_list, R2_get, R2_put.
  rewrite Hp, Hjson.
  unfold try_catch, bind, call, ret, lift, update_bucket. rewrite Hid.
  fields.
  remember (list_keys (photo_prefix artistId (Js.template photoId)) b) as keys eqn:Hkeys.
  symmetry in Hkeys. destruct keys as [|k rest]; [discriminate|].
  injection Hhead as ->.
  assert (Hin : sourceKey ∈ list_keys (photo_prefix artistId (Js.template photoId)) b)
    by (rewrite Hkeys; left).
  apply list_keys_elem in Hin as [_ [source Hsrc]].
  fields. rewrite Hsrc.
  eexists _, _. split; [reflexivity|].
  unfold getMainPhotoUrl, getR2ObjectUrl, R2_get, try_catch, bind, call, ret.
  fields. cbn [Js.template Js.to_string]. fold (main_photo_key artistId).
  rewrite lookup_insert_eq. reflexivity.
Qed.

Lemma setMainPhoto_then_getMainPhotoUrl_witness :
  exists w1 w2,
    setMainPhoto "a" (choose "p1") (quiet photos_of_a [false; false; false; false])
    = (Js.Ok (json_response 200 success), w1)
    /\ getMainPhotoUrl (Some (JSON.Str "a")) w1
       = (Js.Ok (Some ("https://your-r2-domain.com/artists/" +:+ "a"
                       +:+ "/main.jpg")), w2).
Proof.
  apply (setMainPhoto_then_getMainPhotoUrl "a" (choose "p1")
           (JSON.stringify (JSON.Obj [("photoId", JSON.Str "p1")]))
           (JSON.Obj [("photoId", JSON.Str "p1")]) (Some (JSON.Str "p1"))
           "artists/a/photos/p1.png" _ []).
  - reflexivity.
  - vm_compute; reflexivity.
  - reflexivity.
  - vm_compute; reflexivity.
  - reflexivity.
Defined.

(** ** Photos *)

Lemma string_app_assoc a b c : (a +:+ b) +:+ c = a +:+ (b +:+ c).
Proof.
  induction a as [|x a IH]; [by rewrite !append_nil|].
  by rewrite !append_cons, IH.
Qed.

Lemma list_ascii_app a b :
  list_ascii_of_string (a +:+ b) = list_ascii_of_string a ++ list_ascii_of_string b.
Proof.
  induction a as [|x a IH]; [by rewrite append_nil|].
  rewrite append_cons. cbn [list_ascii_of_string app]. by rewrite IH.
Qed.

Lemma split_hd sep a b :
  Forall (fun c => c <> sep) (list_ascii_of_string a) ->
  hd EmptyString (JsString.split sep (a +:+ String sep b)) = a.
Proof.
  induction a as [|c a IH]; cbn [list_ascii_of_string].
  - intros _. rewrite append_nil. cbn [JsString.split]. by rewrite Ascii.eqb_refl.
  - intros [Hc Ha]%Forall_cons. rewrite append_cons. cbn [JsString.split].
    destruct (Ascii.eqb_spec c sep) as [|_]; [done|].
    specialize (IH Ha). destruct (split_two sep a b) as (h & x & t & E).
    rewrite E in *. cbn [hd] in *. by subst.
Qed.

(** X20: the id [getArtistPhotos] derives from the key an upload stores
    is the id the upload answered with, for an id without dot or slash
    and an extension without slash. *)
Theorem photo_id_of_uploaded artistId photoId ext :
  no_dot photoId -> no_slash photoId -> no_slash ext ->
  photo_id_of_key (photo_key artistId photoId ext) = photoId.
Proof.
  intros Hdot Hslash Hext. unfold photo_id_of_key, photo_key.
  replace ("artists/" +:+ artistId +:+ "/photos/" +:+ photoId +:+ "." +:+ ext)
    with (("artists/" +:+ artistId +:+ "/photos")
          +:+ String "/" (photoId +:+ String "." ext)).
  2:{ by rewrite !string_app_assoc. }
  rewrite split_last, (split_no_sep "/"%char).
  - cbn [List.last]. by apply split_hd.
  - rewrite list_ascii_app. apply Forall_app. split; [done|].
    cbn [list_ascii_of_string]. by constructor.
Qed.

Lemma photo_id_of_uploaded_witness :
  photo_id_of_key (photo_key "a" "m2r1bz7k4fzyo82mvyr" "png") = "m2r1bz7k4fzyo82mvyr".
Proof.
  apply (photo_id_of_uploaded "a" "m2r1bz7k4fzyo82mvyr" "png");
    unfold no_dot, no_slash; simpl; repeat constructor; discriminate.
Defined.

Lemma map_each_entries keys : forall w,
  map_each keys
    (fun key =>
       let photoId := photo_id_of_key key in
       let! url := getR2ObjectUrl key in
       ret (JSON.Obj [("id", JSON.Str photoId); ("url", JSON.Str url);
                      ("isMain", JSON.Bool false)])) w
  = (Js.Ok (map photo_entry keys), w).
Proof.
  set (f := fun key : string => _).
  assert (Hf : forall k w, f k w = (Js.Ok (photo_entry k), w)) by reflexivity.
  induction keys as [|k l IH]; intros w; [done|].
  cbn [map_each map]. unfold bind. by rewrite Hf, IH.
Qed.

(** X21: listing the photos of an artist makes one [list] call and writes
    nothing; it answers one entry per key listed, in the order of the
    listing, with the id read off the key, the URL of the key, and
    [isMain] false also for the photo chosen as main photo; it answers 500
    when the listing throws. *)
Theorem getArtistPhotos_lists artistId w :
  exists w',
    getArtistPhotos artistId w
    = (Js.Ok (match faults w with
              | true :: _ => error_response 500 "Failed to get photos"
              | _ =>
                  json_response 200
                    (JSON.Arr (map photo_entry
                                 (list_keys ("artists/" +:+ artistId +:+ "/photos/")
                                    (bucket w))))
              end), w')
    /\ bucket w' = bucket w
    /\ calls w' = calls w ++ [CallList ("artists/" +:+ artistId +:+ "/photos/")].
Proof.
  destruct w as [b fs c lg ck rd].
  unfold getArtistPhotos, R2_list, try_catch, bind at 1 2, call. fields.
  destruct fs as [|[] fs]; fields.
  - unfold bind. rewrite map_each_entries. eexists; split_and!; reflexivity.
  - eexists; split_and!; reflexivity.
  - unfold bind. rewrite map_each_entries. eexists; split_and!; reflexivity.
Qed.

Lemma for_each_delete_all l : forall w,
  faults w = [] ->
  exists w',
    for_each l deleteR2Object w = (Js.Ok tt, w')
    /\ faults w' = []
    /\ (forall k, k ∈ l -> bucket w' !! k = None)
    /\ (forall k, k ∉ l -> bucket w' !! k = bucket w !! k).
Proof.
  induction l as [|x l IH]; intros w Hf.
  - exists w. split_and!; [done|done| |done]. intros k Hk. by apply elem_of_nil in Hk.
  - destruct w as [b fs c lg ck rd]. cbn [faults] in Hf. subst fs.
    assert (Hstep : deleteR2Object x (mkWorld b [] c lg ck rd)
                    = (Js.Ok tt, mkWorld (delete x b) [] (c ++ [CallDelete x]) lg ck rd))
      by reflexivity.
    cbn [for_each]. unfold bind. rewrite Hstep.
    destruct (IH (mkWorld (delete x b) [] (c ++ [CallDelete x]) lg ck rd) eq_refl)
      as (w' & -> & Hf' & Hin & Hout).
    cbn [bucket] in *. exists w'. split_and!; [done|done| |].
    + intros k Hk. destruct (decide (k ∈ l)) as [Hl|Hl]; [by apply Hin|].
      apply elem_of_cons in Hk as [->|Hk]; [|done].
      rewrite Hout by done. apply lookup_delete_eq.
    + intros k [Hne Hk]%not_elem_of_cons. rewrite Hout by done.
      by apply lookup_delete_ne.
Qed.

(** X22: when no call fails, [deletePhoto] deletes every key the listing
    of [artists/{artistId}/photos/{photoId}] answers, so also the photos
    whose id only starts with [photoId], and no object whose key does not
    start with that prefix. *)
Theorem deletePhoto_deletes_listed artistId photoId w :
  faults w = [] ->
  exists w',
    deletePhoto artistId photoId w = (Js.Ok (json_response 200 success), w')
    /\ (forall k, k ∈ list_keys (photo_prefix artistId photoId) (bucket w) ->
                  bucket w' !! k = None)
    /\ (forall k, JsString.startsWith k (photo_prefix artistId photoId) = false ->
                  bucket w' !! k = bucket w !! k).
Proof.
  intros Hf. destruct w as [b fs c lg ck rd]. cbn [faults] in Hf. subst fs.
  unfold deletePhoto, R2_list, try_catch, bind, call, ret. fields.
  match goal with |- context [for_each ?l deleteR2Object ?w0] =>
    destruct (for_each_delete_all l w0 eq_refl) as (w' & -> & _ & Hin & Hout) end.
  cbn [bucket] in *. exists w'. split_and!; [done|done|].
  intros k Hk. apply Hout. intros [Hp _]%list_keys_elem. congruence.
Qed.

Lemma deletePhoto_deletes_listed_witness :
  exists w',
    deletePhoto "a" "p" (quiet photos_of_a [])
    = (Js.Ok (json_response 200 success), w')
    /\ (forall k, k ∈ list_keys (photo_prefix "a" "p") (bucket (quiet photos_of_a [])) ->
                  bucket w' !! k = None)
    /\ (forall k, JsString.startsWith k (photo_prefix "a" "p") = false ->
                  bucket w' !! k = bucket (quiet photos_of_a []) !! k).
Proof.
  apply (deletePhoto_deletes_listed "a" "p" (quiet photos_of_a [])). reflexivity.
Defined.

(** X23: the upload of a file named [base.ext], for an extension that is
    not empty and has no dot, stores the bytes and the content type of the
    file under [artists/{artistId}/photos/{photoId}.ext], by one [put], and
    answers with the generated id and the URL of that key. *)
Theorem uploadPhoto_keeps_extension artistId request fields photo base ext w fs :
  payload request = FormBody fields ->
  formData_get fields "photo" = Some (FieldFile photo) ->
  name photo = base +:+ String "." ext ->
  ext <> EmptyString -> no_dot ext ->
  faults w = false :: fs ->
  exists w',
    uploadPhoto artistId request w
    = (Js.Ok (json_response 200
                (JSON.Obj [("success", JSON.Bool true);
                           ("photoId", JSON.Str (next_id w));
                           ("url",
                            JSON.Str ("https://your-r2-domain.com/"
                                      +:+ photo_key artistId (next_id w) ext))])),
       w')
    /\ bucket w'
       = <[photo_key artistId (next_id w) ext
           := mkR2Object (stream photo) (Some (type photo))]> (bucket w)
    /\ calls w' = calls w ++ [CallPut (photo_key artistId (next_id w) ext)].
Proof.
  intros Hp Hphoto Hname Hne Hnd Hf.
  pose proof (uploadPhoto_stores artistId request fields photo w fs Hp Hphoto Hf)
    as H.
  cbv zeta in H. by rewrite Hname, fileExtension_with_dot in H.
Qed.

Lemma uploadPhoto_keeps_extension_witness :
  exists w',
    uploadPhoto "a"
      (mkRequest "POST" "/api/artists/a/photos"
         (FormBody [("photo", FieldFile (mkFile "shot.png" "image/png" "PNG"))]))
      (quiet one_artist [false])
    = (Js.Ok (json_response 200
                (JSON.Obj [("success", JSON.Bool true);
                           ("photoId", JSON.Str (next_id (quiet one_artist [false])));
                           ("url",
                            JSON.Str ("https://your-r2-domain.com/"
                                      +:+ photo_key "a" (next_id (quiet one_artist [false]))
                                            "png"))])),
       w')
    /\ bucket w'
       = <[photo_key "a" (next_id (quiet one_artist [false])) "png"
           := mkR2Object "PNG" (Some "image/png")]> (bucket (quiet one_artist [false]))
    /\ calls w'
       = calls (quiet one_artist [false])
         ++ [CallPut (photo_key "a" (next_id (quiet one_artist [false])) "png")].
Proof.
  apply (uploadPhoto_keeps_extension "a"
           (mkRequest "POST" "/api/artists/a/photos"
              (FormBody [("photo", FieldFile (mkFile "shot.png" "image/png" "PNG"))]))
           [("photo", FieldFile (mkFile "shot.png" "image/png" "PNG"))]
           (mkFile "shot.png" "image/png" "PNG") "shot" "png"
           (quiet one_artist [false]) []).
  - reflexivity.
  - reflexivity.
  - reflexivity.
  - discriminate.
  - unfold no_dot; simpl; repeat constructor; discriminate.
  - reflexivity.
Defined.

(** ** What a request may write *)

Lemma keeps_of_wn {A} k (m : M A) : writes_nothing m -> keeps k m.
Proof. intros Hm w. destruct (Hm w) as [Hb _]. by rewrite Hb. Qed.

Lemma keeps_ret {A} k (a : A) : keeps k (ret a).
Proof. by intros w. Qed.

Lemma keeps_bind_yields {A B} k (P : A -> Prop) (m : M A) (f : A -> M B) :
  keeps k m -> yields P m -> (forall a, P a -> keeps k (f a)) ->
  keeps k (bind m f).
Proof.
  intros Hm HP Hf w. specialize (Hm w). specialize (HP w). unfold bind.
  destruct (m w) as [[a|e] w1]; cbn [snd] in *; [|done].
  rewrite <- Hm. apply Hf. by eapply HP.
Qed.

Lemma keeps_bind {A B} k (m : M A) (f : A -> M B) :
  keeps k m -> (forall a, keeps k (f a)) -> keeps k (bind m f).
Proof.
  intros Hm Hf. apply (keeps_bind_yields k (fun _ => True)); [done|done|auto].
Qed.

Lemma keeps_try_catch {A} k (m : M A) (h : Js.Error -> M A) :
  keeps k m -> (forall e, keeps k (h e)) -> keeps k (try_catch m h).
Proof.
  intros Hm Hh w. specialize (Hm w). unfold try_catch.
  destruct (m w) as [[a|e] w1]; cbn [snd] in *; [done|].
  rewrite <- Hm. apply Hh.
Qed.

Lemma keeps_call k c : keeps k (call c).
Proof. intros w. unfold call. by destruct (faults w) as [|[] ?]. Qed.

Lemma keeps_R2_put k key data meta : key <> k -> keeps k (R2_put key data meta).
Proof.
  intros Hne. apply keeps_bind; [apply keeps_call|]. intros _ w.
  cbn [update_bucket snd bucket]. by apply lookup_insert_ne.
Qed.

Lemma keeps_R2_delete k key : key <> k -> keeps k (R2_delete key).
Proof.
  intros Hne. apply keeps_bind; [apply keeps_call|]. intros _ w.
  cbn [update_bucket snd bucket]. by apply lookup_delete_ne.
Qed.

Lemma keeps_for_each {A} k (l : list A) (f : A -> M unit) :
  Forall (fun x => keeps k (f x)) l -> keeps k (for_each l f).
Proof.
  induction 1 as [|x l Hx _ IH]; cbn [for_each]; [apply keeps_ret|].
  by apply keeps_bind.
Qed.

Lemma wn_Date_new : writes_nothing Date_new.
Proof. intros w. split; [done|]. exists []. cbn. by rewrite app_nil_r. Qed.

Lemma wn_random : writes_nothing Math_random_toString36.
Proof. intros w. split; [done|]. exists []. cbn. by rewrite app_nil_r. Qed.

Lemma wn_generateId : writes_nothing generateId.
Proof.
  unfold generateId. apply wn_bind; [apply wn_Date_new|]. intros now.
  apply wn_bind; [apply wn_random|]. intros r. apply wn_ret.
Qed.

Lemma wn_toISOString : writes_nothing toISOString.
Proof. apply wn_bind; [apply wn_Date_new|]. intros d. apply wn_ret. Qed.

Lemma wn_request_json request : writes_nothing (request_json request).
Proof. unfold request_json. repeat wn_step. Qed.

Lemma wn_request_formData request : writes_nothing (request_formData request).
Proof. unfold request_formData. repeat wn_step. Qed.

Lemma wn_response_json res : writes_nothing (response_json res).
Proof. unfold response_json. repeat wn_step. Qed.

Lemma wn_findIndex artistId l : writes_nothing (findIndex artistId l).
Proof. induction l as [|a l IH]; cbn [findIndex]; repeat wn_step. exact IH. Qed.

Lemma wn_filter_out artistId l : writes_nothing (filter_out artistId l).
Proof. induction l as [|a l IH]; cbn [filter_out]; repeat wn_step. exact IH. Qed.

Lemma wn_getArtists : writes_nothing getArtists.
Proof. unfold getArtists. repeat wn_step. Qed.

Lemma yields_R2_list prefix :
  yields (Forall (fun x => JsString.startsWith x prefix = true)) (R2_list prefix).
Proof.
  intros w l w'. unfold R2_list, bind, call.
  destruct (faults w) as [|[] ?]; intros [= <- _]; apply Forall_forall;
    intros x Hx; by apply list_keys_elem in Hx as [? _].
Qed.

Lemma prefix_app p s : String.prefix p (p +:+ s) = true.
Proof.
  induction p as [|c p IH]; [rewrite append_nil; by destruct s|].
  rewrite append_cons. cbn [String.prefix]. by destruct (ascii_dec c c).
Qed.

Lemma prefix_shorter p q k :
  String.prefix (p +:+ q) k = true -> String.prefix p k = true.
Proof.
  revert k. induction p as [|c p IH]; intros k; [by destruct k|]. rewrite append_cons.
  destruct k as [|c' k]; cbn [String.prefix]; [done|].
  destruct (ascii_dec c c'); [apply IH|done].
Qed.

Lemma own_collection artistId k : own artistId k = false -> "data/artists.json" <> k.
Proof.
  unfold own. intros H E. subst k. by rewrite String.eqb_refl in H.
Qed.

Lemma own_filmography artistId k :
  own artistId k = false -> filmography_key artistId <> k.
Proof.
  unfold own. intros H E. subst k. rewrite String.eqb_refl, orb_true_r in H. done.
Qed.

Lemma own_under artistId k rest :
  own artistId k = false -> ("artists/" +:+ artistId +:+ "/") +:+ rest <> k.
Proof.
  unfold own, JsString.startsWith. intros H E. subst k.
  rewrite prefix_app, orb_true_r in H. done.
Qed.

Lemma own_listed artistId k rest l :
  own artistId k = false ->
  Forall (fun x => JsString.startsWith x (("artists/" +:+ artistId +:+ "/") +:+ rest)
                   = true) l ->
  Forall (fun x => keeps k (deleteR2Object x)) l.
Proof.
  intros Hown Hl. eapply Forall_impl; [exact Hl|]. cbn beta.
  intros x Hx. apply keeps_R2_delete. intros E. subst x.
  unfold own, JsString.startsWith in *. apply prefix_shorter in Hx.
  rewrite Hx, orb_true_r in Hown. done.
Qed.

Ltac keeps_read := apply keeps_of_wn; solve [repeat wn_step].

Ltac keeps_compound :=
  first
    [ apply keeps_ret
    | apply keeps_of_wn;
        first [ apply wn_request_json | apply wn_request_formData
              | apply wn_response_json
              | apply wn_generateId | apply wn_toISOString
              | apply wn_findIndex | apply wn_filter_out | apply wn_getArtists
              | apply wn_console_error | apply wn_lift | apply wn_throw
              | apply wn_R2_get | apply wn_R2_list ]
    | keeps_read
    | apply keeps_try_catch; [|intro]
    | apply keeps_bind; [|intro]
    | match goal with
      | |- keeps _ (match ?x with _ => _ end) => destruct x
      | |- keeps _ (if ?b then _ else _) => destruct b
      | |- keeps _ (let _ := _ in _) => cbv zeta
      end ].

(** One step through a handler; the writes and the loops over a
    listing are left to the proof. *)
Ltac keeps_step :=
  lazymatch goal with
  | |- keeps _ (R2_put _ _ _) => fail
  | |- keeps _ (R2_delete _) => fail
  | |- keeps _ (console_warn _ _) => fail
  | |- keeps _ (bind (R2_list _) ?f) =>
      lazymatch f with
      | context [@for_each] => fail
      | _ => keeps_compound
      end
  | |- _ => keeps_compound
  end.

(** X24: a request about one artist changes no object but the
    collection, the filmography document of that artist and the objects
    under [artists/{artistId}/], whatever the bucket holds, whatever the
    request carries and whichever calls fail; in particular it changes
    nothing that belongs to another artist. *)
Theorem handlers_write_own_objects artistId photoId request k :
  own artistId k = false ->
  keeps k (updateArtist artistId request)
  /\ keeps k (deleteArtist artistId)
  /\ keeps k (uploadPhoto artistId request)
  /\ keeps k (deletePhoto artistId photoId)
  /\ keeps k (setMainPhoto artistId request)
  /\ keeps k (updateFilmography artistId request).
Proof.
  intros Hown.
  pose proof (own_collection _ _ Hown) as Hc.
  pose proof (own_filmography _ _ Hown) as Hf.
  assert (Hwarn : forall l e, keeps k (console_warn l e)) by (by intros l e w).
  split_and!.
  - unfold updateArtist, putR2Object. repeat keeps_step;
      by apply keeps_R2_put.
  - unfold deleteArtist, putR2Object, deleteR2Object.
    repeat keeps_step; try (by apply keeps_R2_put); try (by apply keeps_R2_delete);
      try apply Hwarn.
    eapply keeps_bind_yields; [keeps_read|apply yields_R2_list|].
    intros l Hl. apply keeps_for_each.
    rewrite <- (append_empty ("artists/" +:+ artistId +:+ "/")) in Hl.
    by eapply own_listed.
  - unfold uploadPhoto. repeat keeps_step.
    apply keeps_R2_put. unfold photo_key.
    match goal with
    | |- "artists/" +:+ artistId +:+ "/photos/" +:+ ?rest <> k =>
        replace ("artists/" +:+ artistId +:+ "/photos/" +:+ rest)
          with (("artists/" +:+ artistId +:+ "/") +:+ ("photos/" +:+ rest))
          by (by rewrite !string_app_assoc)
    end.
    by apply own_under.
  - unfold deletePhoto. repeat keeps_step.
    eapply keeps_bind_yields; [keeps_read|apply yields_R2_list|].
    intros l Hl. apply keeps_bind; [|intro; apply keeps_ret].
    apply keeps_for_each. unfold photo_prefix in Hl.
    replace ("artists/" +:+ artistId +:+ "/photos/" +:+ photoId)
      with (("artists/" +:+ artistId +:+ "/") +:+ ("photos/" +:+ photoId)) in Hl
      by (by rewrite !string_app_assoc).
    by eapply own_listed.
  - unfold setMainPhoto. repeat keeps_step.
    apply keeps_R2_put. unfold main_photo_key.
    replace ("artists/" +:+ artistId +:+ "/main.jpg")
      with (("artists/" +:+ artistId +:+ "/") +:+ "main.jpg")
      by (by rewrite !string_app_assoc).
    by apply own_under.
  - unfold updateFilmography, putR2Object. repeat keeps_step.
    by apply keeps_R2_put.
Qed.

Lemma handlers_write_own_objects_witness :
  keeps "artists/b/main.jpg" (updateArtist "a" (named "B"))
  /\ keeps "artists/b/main.jpg" (deleteArtist "a")
  /\ keeps "artists/b/main.jpg" (uploadPhoto "a" (named "B"))
  /\ keeps "artists/b/main.jpg" (deletePhoto "a" "p1")
  /\ keeps "artists/b/main.jpg" (setMainPhoto "a" (named "B"))
  /\ keeps "artists/b/main.jpg" (updateFilmography "a" (named "B")).
Proof.
  apply (handlers_write_own_objects "a" "p1" (named "B") "artists/b/main.jpg").
  reflexivity.
Defined.

(** X25: creating an artist changes no object outside [data/]: no photo
    and no main photo of any artist, whatever the request carries and
    whichever calls fail. *)
Theorem createArtist_writes_data_only request k :
  JsString.startsWith k "data/" = false ->
  keeps k (createArtist request).
Proof.
  intros Hk.
  assert (Hne : forall rest, "data/" +:+ rest <> k).
  { intros rest <-. unfold JsString.startsWith in Hk. by rewrite prefix_app in Hk. }
  unfold createArtist, putR2Object. repeat keeps_step; apply keeps_R2_put;
    lazymatch goal with
    | |- filmography_key ?a <> k => exact (Hne ("filmography/" +:+ a +:+ ".json"))
    | |- _ => exact (Hne "artists.json")
    end.
Qed.

Lemma createArtist_writes_data_only_witness :
  keeps "artists/a/main.jpg" (createArtist (named "Kim")).
Proof.
  apply (createArtist_writes_data_only (named "Kim") "artists/a/main.jpg").
  reflexivity.
Defined.

(** ** The exports *)







(** ** The entry point *)

Lemma api_reply request w :
  exists res w',
    handleApiRequest request w = (Js.Ok res, w') /\ json_reply res.
Proof.
  unfold handleApiRequest. destruct (find_route _ _ _) as [[handler params]|].
  - apply handlers_answer.
  - eexists _, _. split; [reflexivity|]. apply json_reply_json. cbn; tauto.
Qed.

Lemma carries_cors_of hs :
  (hs = corsHeaders
   \/ hs = ("Content-Type", "application/json") :: corsHeaders
   \/ hs = corsHeaders ++ [("content-type", "text/plain;charset=UTF-8")]) ->
  forall k v, In (k, v) corsHeaders -> Headers_get k hs = Some v.
Proof.
  intros Hhs k v Hin. cbn [corsHeaders In] in Hin.
  destruct Hhs as [->|[->| ->]];
    destruct Hin as [[= <- <-]|[[= <- <-]|[[= <- <-]|[[= <- <-]|[]]]]];
    reflexivity.
Qed.

(** X28: a preflight request, to any path, and a request to a path
    outside [/api/] are answered 200 without a call to the bucket and
    without a change to the world: the first with an empty body, the
    second with the text [Arclead Entertainment API]. *)
Theorem fetch_outside_api message request w :
  method request = "OPTIONS"
  \/ JsString.startsWith (pathname request) "/api/" = false ->
  fetch message request w
  = (Js.Ok (if String.eqb (method request) "OPTIONS" then preflight else banner), w).
Proof.
  intros H. unfold fetch.
  destruct (String.eqb_spec (method request) "OPTIONS") as [E|E]; [reflexivity|].
  destruct H as [H|H]; [done|]. unfold try_catch. by rewrite H.
Qed.

Lemma fetch_outside_api_witness :
  fetch (fun _ => EmptyString) (mkRequest "OPTIONS" "/api/artists" (TextBody EmptyString))
    (quiet one_artist [])
  = (Js.Ok (if String.eqb "OPTIONS" "OPTIONS" then preflight else banner),
     quiet one_artist []).
Proof.
  apply (fetch_outside_api (fun _ => EmptyString)
           (mkRequest "OPTIONS" "/api/artists" (TextBody EmptyString)) (quiet one_artist [])).
  left. reflexivity.
Defined.

(** X29: a request to a path under [/api/] that is no preflight is
    answered with the status and the body of [handleApiRequest], the
    four headers being added after the JSON content type; the branch
    that answers [Internal Server Error] is never taken, whatever fails. *)
Theorem fetch_api message request w :
  method request <> "OPTIONS" ->
  JsString.startsWith (pathname request) "/api/" = true ->
  exists res w',
    handleApiRequest request w = (Js.Ok res, w')
    /\ json_reply res
    /\ fetch message request w
       = (Js.Ok (mkResponse (status res)
                   (("Content-Type", "application/json") :: corsHeaders)
                   (content res)), w').
Proof.
  intros Hm Hp. destruct (api_reply request w) as (res & w' & E & Hres).
  exists res, w'. split_and!; [done|done|]. unfold fetch.
  apply String.eqb_neq in Hm. rewrite Hm, Hp. unfold try_catch, bind.
  rewrite E. destruct Hres as [_ Hh]. unfold ret, add_cors. by rewrite Hh.
Qed.

Lemma fetch_api_witness :
  exists res w',
    handleApiRequest (mkRequest "GET" "/api/artists" (TextBody EmptyString)) (quiet one_artist [])
    = (Js.Ok res, w')
    /\ json_reply res
    /\ fetch (fun _ => EmptyString) (mkRequest "GET" "/api/artists" (TextBody EmptyString))
         (quiet one_artist [])
       = (Js.Ok (mkResponse (status res)
                   (("Content-Type", "application/json") :: corsHeaders)
                   (content res)), w').
Proof.
  apply (fetch_api (fun _ => EmptyString)
           (mkRequest "GET" "/api/artists" (TextBody EmptyString)) (quiet one_artist [])).
  - discriminate.
  - reflexivity.
Defined.

(** X30: [fetch] never throws, and every response it gives, whatever the
    request and whatever fails, carries the four cross-origin headers
    with the values of [corsHeaders]. *)
Theorem fetch_carries_cors message request :
  answers carries_cors (fetch message request).
Proof.
  intros w. unfold carries_cors.
  destruct (String.eqb_spec (method request) "OPTIONS") as [E|E].
  - eexists _, _. split.
    + unfold fetch. apply String.eqb_eq in E. rewrite E. reflexivity.
    + apply carries_cors_of. by left.
  - destruct (JsString.startsWith (pathname request) "/api/") eqn:Hp.
    + destruct (api_reply request w) as (res & w' & Eres & _ & Hh).
      eexists _, w'. split.
      * unfold fetch. apply String.eqb_neq in E. rewrite E, Hp.
        unfold try_catch, bind. rewrite Eres. reflexivity.
      * unfold add_cors. rewrite Hh. apply carries_cors_of. right. by left.
    + eexists _, _. split.
      * unfold fetch. apply String.eqb_neq in E. rewrite E, Hp. reflexivity.
      * apply carries_cors_of. right. by right.
Qed.
